(** * alter-voice: the real-time voice modulator

    A shallow embedding of [voice_mod_experimental.py] (the push-to-talk
    variant; the two other programs are the same pipeline without the gate
    and with another block size), and the properties of its pitch shifter,
    carrier oscillator, robotic effect, audio callback and key handler.

    Number model.  Samples and Python floats are real numbers: numpy's
    element-wise arithmetic is exact, [astype(np.float32)] is the identity.
    What is kept of the floating-point range is what changes the control
    flow of the program, the exceptions that Python's own scalar operators
    raise: [2.0 ** y] raises [OverflowError] from [2^1024] on and gives
    [0.0] below the smallest subnormal, [i / 0.0] raises
    [ZeroDivisionError], [int] of an infinite quotient raises
    [OverflowError].  numpy's array operations never raise on range.

    Two things follow from the choice of the reals.  A sample is a finite
    number: a block with a NaN or an infinity in it is not a value of
    [InData], and the properties that bound what the callback writes name
    the sample domain of the stream, [[-1, 1]], as a hypothesis.  And
    [2.0 ** y] is the exact power, where Python rounds it to a double: the
    properties that name the bin a source bin is sent to are stated for the
    pitches that the keys produce, the halves of the integers, on which
    [int(i / ratio)] is the same for the exact and for the rounded ratio. *)

From Stdlib Require Import Reals Lra Lia List ZArith Bool Arith Ascii.
Import ListNotations.

(** ** Python: exceptions, results, statements over the module globals *)

Inductive exn : Type :=
| ValueError
| OverflowError
| ZeroDivisionError.

Inductive result (A : Type) : Type :=
| Ok (a : A)
| Raise (e : exn).

Arguments Ok {A} a.
Arguments Raise {A} e.

Definition bindR {A B : Type} (r : result A) (k : A -> result B) : result B :=
  match r with
  | Ok a => k a
  | Raise e => Raise e
  end.

Notation "'let?' x ':=' e 'in' k" := (bindR e (fun x => k))
  (at level 10, x name, e at level 100, k at level 200).

(** The module-level state: the four single-element lists written by the
    key loop, and [carrier_idx], written by the audio callback. *)
Record Globals : Type := mkGlobals {
  current_pitch : R;
  robotic_enabled : bool;
  push_to_talk_enabled : bool;
  is_talking : bool;
  carrier_idx : nat
}.

Definition set_current_pitch (v : R) (g : Globals) : Globals :=
  mkGlobals v (robotic_enabled g) (push_to_talk_enabled g) (is_talking g) (carrier_idx g).

Definition set_robotic_enabled (v : bool) (g : Globals) : Globals :=
  mkGlobals (current_pitch g) v (push_to_talk_enabled g) (is_talking g) (carrier_idx g).

Definition set_push_to_talk_enabled (v : bool) (g : Globals) : Globals :=
  mkGlobals (current_pitch g) (robotic_enabled g) v (is_talking g) (carrier_idx g).

Definition set_is_talking (v : bool) (g : Globals) : Globals :=
  mkGlobals (current_pitch g) (robotic_enabled g) (push_to_talk_enabled g) v (carrier_idx g).

Definition set_carrier_idx (v : nat) (g : Globals) : Globals :=
  mkGlobals (current_pitch g) (robotic_enabled g) (push_to_talk_enabled g) (is_talking g) v.

(** A statement either returns or raises, and in both cases leaves the
    globals as it has written them so far. *)
Definition M (A : Type) : Type := Globals -> result A * Globals.

Definition ret {A : Type} (a : A) : M A := fun g => (Ok a, g).

Definition raise {A : Type} (e : exn) : M A := fun g => (Raise e, g).

Definition bind {A B : Type} (m : M A) (k : A -> M B) : M B :=
  fun g =>
    match m g with
    | (Ok a, g') => k a g'
    | (Raise e, g') => (Raise e, g')
    end.

Definition lift {A : Type} (r : result A) : M A := fun g => (r, g).

Definition read {A : Type} (field : Globals -> A) : M A := fun g => (Ok (field g), g).

Definition write (upd : Globals -> Globals) : M unit := fun g => (Ok tt, upd g).

(** [try: body  except Exception: handler]: every modelled exception is an
    [Exception]; what the body wrote before raising stays written. *)
Definition try_except {A : Type} (body : M A) (handler : exn -> M A) : M A :=
  fun g =>
    match body g with
    | (Ok a, g') => (Ok a, g')
    | (Raise e, g') => handler e g'
    end.

Notation "x <- e ;; k" := (bind e (fun x => k))
  (at level 61, e at next level, right associativity).

(** ** Python scalar operations that can raise *)

Local Open Scope R_scope.

(** Magnitudes from here on are infinite as a double. *)
Definition float_inf : R := Rpower 2 1024.

(** [2.0 ** y] on Python floats. *)
Definition pow2 (y : R) : result R :=
  if Rle_dec 1024 y then Raise OverflowError
  else if Rle_dec y (-1075) then Ok 0
  else Ok (Rpower 2 y).

(** [i / ratio] with [i] a Python int and [ratio] a Python float. *)
Definition truediv (i : nat) (ratio : R) : result R :=
  if Req_dec_T ratio 0 then Raise ZeroDivisionError else Ok (INR i / ratio).

(** Rounding toward zero. *)
Definition trunc (q : R) : Z :=
  if Rle_dec 0 q then Int_part q else (- Int_part (- q))%Z.

(** [int(q)] on a Python float. *)
Definition py_int (q : R) : result Z :=
  if Rle_dec float_inf (Rabs q) then Raise OverflowError else Ok (trunc q).

(** ** numpy: one-dimensional arrays as lists *)

Definition map2 (f : R -> R -> R) (a b : list R) : list R :=
  map (fun p => f (fst p) (snd p)) (combine a b).

(** An element-wise binary operator, with numpy's broadcasting of a
    one-element operand; other shape mismatches raise [ValueError]. *)
Definition np_binop (f : R -> R -> R) (a b : list R) : result (list R) :=
  if (length a =? length b)%nat then Ok (map2 f a b)
  else if (length b =? 1)%nat then Ok (map (fun x => f x (nth 0 b 0)) a)
  else if (length a =? 1)%nat then Ok (map (fun y => f (nth 0 a 0) y) b)
  else Raise ValueError.

Definition np_scale (a : list R) (k : R) : list R := map (fun v => v * k) a.

Definition np_zeros (n : nat) : list R := repeat 0 n.

(** [np.max(np.abs(a))]; the reduction of an empty array raises. *)
Definition np_max_abs (a : list R) : result R :=
  match a with
  | [] => Raise ValueError
  | x :: t => Ok (fold_left Rmax (map Rabs t) (Rabs x))
  end.

(** [np.round]: to the nearest integer, ties to the even one. *)
Definition np_round (x : R) : R :=
  let f := Int_part x in
  let d := x - IZR f in
  if Rlt_dec d (1/2) then IZR f
  else if Rlt_dec (1/2) d then IZR (f + 1)
  else if Z.even f then IZR f else IZR (f + 1).

(** [np.clip(x, lo, hi)] is [minimum(hi, maximum(x, lo))]. *)
Definition np_clip (lo hi : R) (a : list R) : list R :=
  map (fun v => Rmin hi (Rmax v lo)) a.

(** [a[i:j]], [a[i:]] and [a[:j]] for indices that are not negative. *)
Definition slice {A : Type} (a : list A) (i j : nat) : list A := firstn (j - i) (skipn i a).

Definition slice_from {A : Type} (a : list A) (i : nat) : list A := skipn i a.

Definition slice_to {A : Type} (a : list A) (j : nat) : list A := firstn j a.

(** [col[:] = v] on a column of [rows] entries: [v] must have that many
    entries, or one entry that is broadcast. *)
Definition assign (rows : nat) (v : list R) : result (list R) :=
  if (length v =? rows)%nat then Ok v
  else if (length v =? 1)%nat then Ok (repeat (nth 0 v 0) rows)
  else Raise ValueError.

(** *** The real FFT pair *)

Definition C : Type := (R * R)%type.

Definition czero : C := (0, 0).

Definition cadd (a b : C) : C := (fst a + fst b, snd a + snd b).

Definition Rsum (f : nat -> R) (n : nat) : R :=
  fold_right (fun k acc => f k + acc) 0 (seq 0 n).

Definition angle (k m n : nat) : R := 2 * PI * INR k * INR m / INR n.

(** Bin [k] of the discrete Fourier transform of [x]. *)
Definition dft_bin (x : list R) (k : nat) : C :=
  let n := length x in
  (Rsum (fun m => nth m x 0 * cos (angle k m n)) n,
   - Rsum (fun m => nth m x 0 * sin (angle k m n)) n).

(** [np.fft.rfft(x)]: the bins [0 .. n/2]; no transform of no points. *)
Definition rfft (x : list R) : result (list C) :=
  match length x with
  | O => Raise ValueError
  | S _ => Ok (map (dft_bin x) (seq 0 (length x / 2 + 1)))
  end.

(** Sample [m] of the inverse transform of the Hermitian extension of the
    bins [a] to [n] points; the imaginary parts of the first bin and, for
    even [n], of the last one play no part. *)
Definition idft_sample (a : list C) (n m : nat) : R :=
  (fst (nth 0 a czero)
   + 2 * Rsum (fun j => fst (nth (S j) a czero) * cos (angle (S j) m n)
                        - snd (nth (S j) a czero) * sin (angle (S j) m n))
              ((n - 1) / 2)
   + (if Nat.even n then fst (nth (n / 2) a czero) * cos (PI * INR m) else 0))
  / INR n.

(** [np.fft.irfft(a, n=n)]. *)
Definition irfft (a : list C) (n : nat) : result (list R) :=
  match n with
  | O => Raise ValueError
  | S _ => Ok (map (idft_sample a n) (seq 0 n))
  end.

(** [a[k] += v]. *)
Fixpoint add_at (k : nat) (v : C) (a : list C) : list C :=
  match a, k with
  | [], _ => []
  | x :: t, O => cadd x v :: t
  | x :: t, S k' => x :: add_at k' v t
  end.

(** ** The program *)

Definition SAMPLE_RATE : Z := 48000.

Definition BLOCK_SIZE : nat := 256.

Definition PITCH_SHIFT : R := 3.0.

Definition carrier_table_size : nat := 4800.

(** [np.sin(2 * np.pi * 95 * np.arange(carrier_table_size) / SAMPLE_RATE)] *)
Definition carrier_table : list R :=
  map (fun n => sin (2 * PI * 95 * INR n / IZR SAMPLE_RATE)) (seq 0 carrier_table_size).

(** The globals as the module body leaves them. *)
Definition initial_globals : Globals :=
  mkGlobals PITCH_SHIFT true false false 0.

(** *** pitch_shift_fast *)

(** The loop of lines 43-47 over the bin indices still to visit. *)
Fixpoint remap_loop (ratio : R) (spectrum : list C) (idxs : list nat)
    (new_spectrum : list C) : result (list C) :=
  match idxs with
  | [] => Ok new_spectrum
  | i :: idxs' =>
      let? q := truediv i ratio in
      let? new_freq_idx := py_int q in
      remap_loop ratio spectrum idxs'
        (if ((0 <=? new_freq_idx)%Z && (new_freq_idx <? Z.of_nat (length new_spectrum))%Z)%bool
         then add_at (Z.to_nat new_freq_idx) (nth i spectrum czero) new_spectrum
         else new_spectrum)
  end.

(** Lines 41-47: [new_spectrum = np.zeros_like(spectrum)], then the loop
    over [range(len(spectrum))]. *)
Definition shift_bins (ratio : R) (spectrum : list C) : result (list C) :=
  remap_loop ratio spectrum (seq 0 (length spectrum)) (repeat czero (length spectrum)).

(** Lines 53-57. *)
Definition normalize (audio shifted : list R) : result (list R) :=
  let? max_val := np_max_abs shifted in
  if Rlt_dec 0 max_val
  then let? peak := np_max_abs audio in
       Ok (map (fun v => v / max_val * peak) shifted)
  else Ok shifted.

(** The unused [freqs] of line 38 is left out: [rfftfreq] of a positive
    length and a non-zero spacing cannot raise. *)
Definition pitch_shift_fast (audio : list R) (semitones : R) : result (list R) :=
  if Rlt_dec (Rabs semitones) 0.1 then Ok audio
  else
    let? ratio := pow2 (semitones / 12.0) in
    let? spectrum := rfft audio in
    let? new_spectrum := shift_bins ratio spectrum in
    let? shifted := irfft new_spectrum (length audio) in
    normalize audio shifted.

(** *** apply_robotic_effect *)

(** Lines 64-76: the read of the wavetable at the cursor, and the advance
    of the cursor. *)
Definition read_carrier (n : nat) : M (list R) :=
  start_idx <- read carrier_idx ;;
  let end_idx := (start_idx + n)%nat in
  let carrier :=
    if (end_idx <=? carrier_table_size)%nat
    then slice carrier_table start_idx end_idx
    else slice_from carrier_table start_idx
         ++ slice_to carrier_table (end_idx - carrier_table_size) in
  _ <- write (set_carrier_idx (end_idx mod carrier_table_size)) ;;
  ret carrier.

Definition bits : nat := 10.

(** Line 79. *)
Definition ring_modulate (audio carrier : list R) (intensity : R) : result (list R) :=
  let? ac := np_binop Rmult audio carrier in
  np_binop Rplus (np_scale ac intensity) (np_scale audio (1 - intensity)).

(** Line 83, on one sample. *)
Definition bit_reduce (y : R) : R := np_round (y * 2 ^ bits) / 2 ^ bits.

(** Line 86, on one sample. *)
Definition soft_clip (y : R) : R := tanh (y * 1.2) * 0.9.

(** Lines 79-88: the effect on a block and its carrier segment. *)
Definition robotic_shape (audio carrier : list R) (intensity : R) : result (list R) :=
  let? modulated := ring_modulate audio carrier intensity in
  Ok (map soft_clip (map bit_reduce modulated)).

Definition apply_robotic_effect (audio : list R) (intensity : R) : M (list R) :=
  carrier <- read_carrier (length audio) ;;
  lift (robotic_shape audio carrier intensity).

(** *** audio_callback *)

(** [indata]: [frames] rows of at least one channel (the stream is opened
    with one input channel). *)
Record InData : Type := mkInData {
  frames : nat;
  extra_channels : nat;
  sample : nat -> nat -> R
}.

Definition shape1 (indata : InData) : nat := S (extra_channels indata).

(** [indata[:, 0]] *)
Definition column0 (indata : InData) : list R :=
  map (fun r => sample indata r 0%nat) (seq 0 (frames indata)).

(** [indata.flatten()] *)
Definition flatten (indata : InData) : list R :=
  flat_map (fun r => map (sample indata r) (seq 0 (shape1 indata))) (seq 0 (frames indata)).

(** Line 96. *)
Definition mono_of (indata : InData) : list R :=
  if (1 <? shape1 indata)%nat then column0 indata else flatten indata.

(** The two columns of [outdata] once the callback is over. *)
Definition OutData : Type := (list R * list R)%type.

Definition write_stereo (rows : nat) (v : list R) : M OutData :=
  ch0 <- lift (assign rows v) ;;
  ch1 <- lift (assign rows v) ;;
  ret (ch0, ch1).

(** Lines 111-114. *)
Definition fix_length (rows : nat) (shifted : list R) : list R :=
  if (rows <? length shifted)%nat then slice_to shifted rows
  else if (length shifted <? rows)%nat then shifted ++ np_zeros (rows - length shifted)
  else shifted.

(** Lines 106-128, the body of the [try]. *)
Definition process (rows : nat) (mono : list R) : M OutData :=
  pitch <- read current_pitch ;;
  shifted <- (if Rlt_dec 0.1 (Rabs pitch)
              then s <- lift (pitch_shift_fast mono pitch) ;; ret (fix_length rows s)
              else ret mono) ;;
  robotic <- read robotic_enabled ;;
  shifted <- (if robotic then apply_robotic_effect shifted 0.7 else ret shifted) ;;
  let shifted := np_scale shifted 2.2 in
  let shifted := np_clip (-0.95) 0.95 shifted in
  write_stereo rows shifted.

(** Lines 132-133, the handler. *)
Definition passthrough (rows : nat) (mono : list R) : M OutData :=
  write_stereo rows (np_scale mono 1.5).

Definition audio_callback (indata : InData) : M OutData :=
  let mono := mono_of indata in
  ptt <- read push_to_talk_enabled ;;
  talking <- read is_talking ;;
  if (ptt && negb talking)%bool
  then write_stereo (frames indata) (np_zeros (frames indata))
  else try_except (process (frames indata) mono)
                  (fun _ => passthrough (frames indata) mono).

(** *** The key loop of main *)

Definition ESC : ascii := "027"%char.

Definition is_key (key c : ascii) : bool := Ascii.eqb key c.

(** One pass of the [if key:] chain of lines 181-214 for a key that was
    read; [next1] and [next2] are what the two further [get_key()] calls of
    the escape branch return.  [None] is the [break] of ['q'].  The status
    line that is printed is not part of the state. *)
Definition handle_key (key : ascii) (next1 next2 : option ascii) (g : Globals)
    : option Globals :=
  if is_key key "q" then None
  else if (is_key key "r" || is_key key "R")%bool then
    Some (set_robotic_enabled (negb (robotic_enabled g)) g)
  else if (is_key key "p" || is_key key "P")%bool then
    let g1 := set_push_to_talk_enabled (negb (push_to_talk_enabled g)) g in
    Some (if negb (push_to_talk_enabled g1) then set_is_talking false g1 else g1)
  else if is_key key " " then
    Some (if push_to_talk_enabled g
          then set_is_talking (negb (is_talking g)) g
          else g)
  else if (is_key key "+" || is_key key "=")%bool then
    Some (set_current_pitch (current_pitch g + 0.5) g)
  else if (is_key key "-" || is_key key "_")%bool then
    Some (set_current_pitch (current_pitch g - 0.5) g)
  else if is_key key "0" then
    Some (set_current_pitch PITCH_SHIFT g)
  else if is_key key ESC then
    match next1 with
    | Some c1 =>
        if is_key c1 "[" then
          match next2 with
          | Some c2 =>
              if is_key c2 "A" then Some (set_current_pitch (current_pitch g + 0.5) g)
              else if is_key c2 "B" then Some (set_current_pitch (current_pitch g - 0.5) g)
              else Some g
          | None => Some g
          end
        else Some g
    | None => Some g
    end
  else Some g.

(** The [while True] loop run over the successive results of [get_key()]
    ([None]: the 0.1 s poll timed out).  The escape branch consumes two more
    polls.  The loop is observed until it breaks or the polls run out. *)
Fixpoint main_loop (polls : list (option ascii)) (g : Globals) : Globals :=
  match polls with
  | [] => g
  | None :: rest => main_loop rest g
  | Some key :: rest =>
      if is_key key ESC then
        match rest with
        | next1 :: next2 :: rest2 =>
            match handle_key key next1 next2 g with
            | Some g' => main_loop rest2 g'
            | None => g
            end
        | _ => g
        end
      else
        match handle_key key None None g with
        | Some g' => main_loop rest g'
        | None => g
        end
  end.

(** ** The vocabulary of the properties *)

(** What [read_carrier] returns and writes. *)
Definition carrier_segment (start_idx n : nat) : list R :=
  if (start_idx + n <=? carrier_table_size)%nat
  then slice carrier_table start_idx (start_idx + n)
  else slice_from carrier_table start_idx
       ++ slice_to carrier_table (start_idx + n - carrier_table_size).

(** The cursor after a series of reads of the given lengths. *)
Definition run_reads (ns : list nat) (g : Globals) : Globals :=
  fold_left (fun g' n => snd (read_carrier n g')) ns g.

Definition talking_implies_ptt (g : Globals) : Prop :=
  is_talking g = true -> push_to_talk_enabled g = true.

Definition same_flags (g g' : Globals) : Prop :=
  push_to_talk_enabled g' = push_to_talk_enabled g /\ is_talking g' = is_talking g.

Definition in_clip_range (v : R) : Prop := -0.95 <= v <= 0.95.

(** The gate of line 99. *)
Definition muted (g : Globals) : bool :=
  (push_to_talk_enabled g && negb (is_talking g))%bool.

(** The semitone values for which nothing in the shifter leaves the double
    range on a block of [n] samples: the ratio [2.0 ** (semitones / 12.0)]
    is finite and not zero, and so is the quotient of the last bin index
    [n / 2] (hence of every bin index) by it. *)
Definition pitch_in_range (n : nat) (semitones : R) : Prop :=
  -1075 < semitones / 12.0 < 1024 /\
  INR (n / 2) / Rpower 2 (semitones / 12.0) < float_inf.

(** The bin that source bin [i] is sent to, as the specification words it:
    the floor of [i / ratio]. *)
Definition target (ratio : R) (i : nat) : Z := Int_part (INR i / ratio).

(** One turn of the loop as a function: lines 45-47 when nothing raises. *)
Definition remap_step (ratio : R) (spectrum : list C) (acc : list C) (i : nat) : list C :=
  if ((0 <=? target ratio i)%Z && (target ratio i <? Z.of_nat (length acc))%Z)%bool
  then add_at (Z.to_nat (target ratio i)) (nth i spectrum czero) acc
  else acc.

(** The source bins that land on bin [k], in increasing order. *)
Definition sources (ratio : R) (k : nat) (idxs : list nat) : list nat :=
  filter (fun i => (target ratio i =? Z.of_nat k)%Z) idxs.

(** The sum of the bins taken in order, from the zero a bin starts at. *)
Definition csum (l : list C) : C := fold_left cadd l czero.

Definition all_zero (a : list R) : Prop := Forall (fun v => v = 0) a.

(** *** The two programs without push-to-talk *)

(** [audio_callback] of [voice_mod_high_quality.py] and of
    [voice_mod_separate_devices.py]: line 96, then the [try] at once.  These
    programs have no push-to-talk cells; over [Globals] the two flags are
    carried along, neither read nor written. *)
Definition audio_callback_no_ptt (indata : InData) : M OutData :=
  let mono := mono_of indata in
  try_except (process (frames indata) mono)
             (fun _ => passthrough (frames indata) mono).

(** The key chain of these two programs: the one of [handle_key] without
    the ['p'] and the space branches. *)
Definition handle_key_no_ptt (key : ascii) (next1 next2 : option ascii) (g : Globals)
    : option Globals :=
  if is_key key "q" then None
  else if (is_key key "r" || is_key key "R")%bool then
    Some (set_robotic_enabled (negb (robotic_enabled g)) g)
  else if (is_key key "+" || is_key key "=")%bool then
    Some (set_current_pitch (current_pitch g + 0.5) g)
  else if (is_key key "-" || is_key key "_")%bool then
    Some (set_current_pitch (current_pitch g - 0.5) g)
  else if is_key key "0" then
    Some (set_current_pitch PITCH_SHIFT g)
  else if is_key key ESC then
    match next1 with
    | Some c1 =>
        if is_key c1 "[" then
          match next2 with
          | Some c2 =>
              if is_key c2 "A" then Some (set_current_pitch (current_pitch g + 0.5) g)
              else if is_key c2 "B" then Some (set_current_pitch (current_pitch g - 0.5) g)
              else Some g
          | None => Some g
          end
        else Some g
    | None => Some g
    end
  else Some g.

Fixpoint main_loop_no_ptt (polls : list (option ascii)) (g : Globals) : Globals :=
  match polls with
  | [] => g
  | None :: rest => main_loop_no_ptt rest g
  | Some key :: rest =>
      if is_key key ESC then
        match rest with
        | next1 :: next2 :: rest2 =>
            match handle_key_no_ptt key next1 next2 g with
            | Some g' => main_loop_no_ptt rest2 g'
            | None => g
            end
        | _ => g
        end
      else
        match handle_key_no_ptt key None None g with
        | Some g' => main_loop_no_ptt rest g'
        | None => g
        end
  end.

(** ** More vocabulary *)

(** The globals after the stream has delivered the blocks one after the
    other. *)
Definition run_callbacks (blocks : list InData) (g : Globals) : Globals :=
  fold_left (fun g' indata => snd (audio_callback indata g')) blocks g.

Definition total_frames (blocks : list InData) : nat := list_sum (map frames blocks).

(** The keys that only the push-to-talk program knows. *)
Definition ptt_key (key : ascii) : Prop :=
  key = "p"%char \/ key = "P"%char \/ key = " "%char.

(** The keys that the chain of lines 181-205 tests for. *)
Definition recognised (key : ascii) : Prop :=
  In key ["q"; "r"; "R"; "p"; "P"; " "; "+"; "="; "-"; "_"; "0"; ESC]%char.

(** The block with every sample negated, and what is negated with it. *)
Definition negate (indata : InData) : InData :=
  mkInData (frames indata) (extra_channels indata) (fun r c => - sample indata r c).

Definition np_neg (a : list R) : list R := map Ropp a.

Definition cneg (c : C) : C := (- fst c, - snd c).

Definition map_result {A B : Type} (f : A -> B) (r : result A) : result B :=
  match r with
  | Ok a => Ok (f a)
  | Raise e => Raise e
  end.

Definition neg_out (out : OutData) : OutData := (np_neg (fst out), np_neg (snd out)).

(** The pitches that the keys can produce: the halves of the integers. *)
Definition on_half_grid (p : R) : Prop := exists k : Z, p = IZR k / 2.

(** The sample domain of the input stream: every sample of the block, in
    every channel, is a number of [[-1, 1]]. *)
Definition samples_in_unit_range (indata : InData) : Prop :=
  forall r c : nat, -1 <= sample indata r c <= 1.

Definition with_flags (ptt talking : bool) (g : Globals) : Globals :=
  set_is_talking talking (set_push_to_talk_enabled ptt g).

Definition raises {A : Type} (r : result A) : Prop := exists e, r = Raise e.

(** A statement that neither reads nor writes the two push-to-talk flags. *)
Definition flag_blind {A : Type} (m : M A) : Prop :=
  forall ptt talking g,
    m (with_flags ptt talking g)
    = (fst (m g), with_flags ptt talking (snd (m g))).

(** The cursor one block further. *)
Definition advance (n : nat) (g : Globals) : Globals :=
  set_carrier_idx ((carrier_idx g + n) mod carrier_table_size) g.

Definition all_czero (a : list C) : Prop := Forall (fun c => c = czero) a.

(** ** The rounding operations on a few values *)

Lemma Int_part_between (z : Z) (r : R) : IZR z <= r < IZR z + 1 -> Int_part r = z.
Proof. intros H. symmetry. apply Int_part_spec. lra. Qed.

Example np_round_ties_to_even :
  np_round 0.5 = 0 /\ np_round 1.5 = 2 /\ np_round 2.5 = 2 /\ np_round (-0.5) = 0 /\
  np_round 0.4 = 0 /\ np_round (-1.7) = -2.
Proof.
  unfold np_round.
  rewrite (Int_part_between 0 0.5), (Int_part_between 1 1.5), (Int_part_between 2 2.5),
    (Int_part_between (-1) (-0.5)), (Int_part_between 0 0.4), (Int_part_between (-2) (-1.7))
    by lra.
  repeat split;
    repeat match goal with
           | |- context [Rlt_dec ?a ?b] => destruct (Rlt_dec a b); try lra
           end;
    cbn; lra.
Qed.

Example trunc_toward_zero : trunc 2.7 = 2%Z /\ trunc (-2.7) = (-2)%Z /\ trunc 0 = 0%Z.
Proof.
  unfold trunc. repeat split.
  - destruct (Rle_dec 0 2.7); [| lra]. apply Int_part_between. lra.
  - destruct (Rle_dec 0 (-2.7)); [lra |].
    rewrite (Int_part_between 2 (- -2.7)) by lra. reflexivity.
  - destruct (Rle_dec 0 0); [| lra]. apply Int_part_between. lra.
Qed.

(** ** Monad and list bookkeeping *)

Lemma carrier_table_size_eq : carrier_table_size = 4800%nat.
Proof. reflexivity. Qed.

Lemma carrier_table_size_pos : (0 < carrier_table_size)%nat.
Proof. rewrite carrier_table_size_eq. lia. Qed.

Lemma carrier_table_length : length carrier_table = carrier_table_size.
Proof. unfold carrier_table. now rewrite length_map, length_seq. Qed.

Lemma carrier_idx_set (v : nat) (g : Globals) : carrier_idx (set_carrier_idx v g) = v.
Proof. reflexivity. Qed.

Lemma carrier_table_nth (n : nat) :
  (n < carrier_table_size)%nat ->
  nth n carrier_table 0 = sin (2 * PI * 95 * INR n / IZR SAMPLE_RATE).
Proof.
  intros H. unfold carrier_table.
  set (f := fun n => sin (2 * PI * 95 * INR n / IZR SAMPLE_RATE)).
  rewrite nth_indep with (d' := f 0%nat) by now rewrite length_map, length_seq.
  rewrite map_nth. now rewrite seq_nth.
Qed.

Opaque carrier_table_size carrier_table.

Lemma slice_length {A : Type} (a : list A) (i j : nat) :
  length (slice a i j) = Nat.min (j - i) (length a - i).
Proof. unfold slice. now rewrite length_firstn, length_skipn. Qed.

Lemma read_carrier_eq (n : nat) (g : Globals) :
  read_carrier n g =
  (Ok (carrier_segment (carrier_idx g) n),
   set_carrier_idx ((carrier_idx g + n) mod carrier_table_size) g).
Proof. reflexivity. Qed.

Lemma carrier_segment_length (start_idx n : nat) :
  (start_idx < carrier_table_size)%nat ->
  length (carrier_segment start_idx n) = Nat.min n (2 * carrier_table_size - start_idx).
Proof.
  intros Hs. unfold carrier_segment, slice_from, slice_to.
  destruct (Nat.leb_spec (start_idx + n) carrier_table_size) as [Hle | Hgt].
  - rewrite slice_length, carrier_table_length. lia.
  - rewrite length_app, length_skipn, length_firstn, carrier_table_length. lia.
Qed.

Lemma run_reads_cursor (ns : list nat) (g : Globals) :
  (carrier_idx g < carrier_table_size)%nat ->
  carrier_idx (run_reads ns g) = ((carrier_idx g + list_sum ns) mod carrier_table_size)%nat.
Proof.
  unfold run_reads. revert g.
  induction ns as [| n ns IH]; intros g Hg; cbn [fold_left].
  - change (list_sum []) with 0%nat. rewrite Nat.add_0_r. symmetry. now apply Nat.mod_small.
  - pose proof carrier_table_size_pos as Hpos.
    change (list_sum (n :: ns)) with (n + list_sum ns)%nat.
    rewrite IH; rewrite read_carrier_eq; cbn [snd]; rewrite carrier_idx_set.
    + rewrite Nat.Div0.add_mod_idemp_l. f_equal. lia.
    + apply Nat.mod_upper_bound. lia.
Qed.

Lemma apply_robotic_effect_cursor (audio : list R) (intensity : R) (g : Globals) :
  snd (apply_robotic_effect audio intensity g) = snd (read_carrier (length audio) g).
Proof.
  unfold apply_robotic_effect, bind. rewrite read_carrier_eq. unfold lift.
  now destruct (robotic_shape _ _ _).
Qed.

(** ** C2: the length of the carrier segment *)

(** C2, as the code has it: from a cursor inside the table, a read of [n]
    samples returns [n] samples as long as it ends within one wrap
    ([cursor + n <= 2 * carrier_table_size], so every [n] up to the table
    size, inside the table or across its end once); a longer read still wraps
    once only and returns [2 * carrier_table_size - cursor] samples. *)
Theorem read_carrier_length (n : nat) (g : Globals) :
  (carrier_idx g < carrier_table_size)%nat ->
  exists carrier,
    fst (read_carrier n g) = Ok carrier /\
    length carrier = Nat.min n (2 * carrier_table_size - carrier_idx g) /\
    ((carrier_idx g + n <= 2 * carrier_table_size)%nat -> length carrier = n) /\
    ((n <= carrier_table_size)%nat -> length carrier = n).
Proof.
  intros Hg. exists (carrier_segment (carrier_idx g) n).
  rewrite read_carrier_eq. cbn [fst]. split; [reflexivity |].
  rewrite (carrier_segment_length _ _ Hg). repeat split; lia.
Qed.

Lemma read_carrier_length_witness :
  exists carrier,
    fst (read_carrier 256 initial_globals) = Ok carrier /\
    length carrier = Nat.min 256 (2 * carrier_table_size - carrier_idx initial_globals) /\
    ((carrier_idx initial_globals + 256 <= 2 * carrier_table_size)%nat -> length carrier = 256%nat) /\
    ((256 <= carrier_table_size)%nat -> length carrier = 256%nat).
Proof.
  apply (read_carrier_length 256 initial_globals).
  rewrite carrier_table_size_eq. cbn [carrier_idx initial_globals]. lia.
Defined.

(** C2 as the specification states it fails: a read of
    [2 * 4800 + 1 = 9601] samples from cursor 0 returns 9600 samples. *)
Lemma read_carrier_multi_wrap_short :
  exists carrier,
    fst (read_carrier (2 * 4800 + 1) initial_globals) = Ok carrier /\
    length carrier = (2 * 4800)%nat /\
    length carrier <> (2 * 4800 + 1)%nat.
Proof.
  exists (carrier_segment 0 (2 * 4800 + 1)).
  rewrite read_carrier_eq. split; [reflexivity |].
  cbn [carrier_idx initial_globals].
  rewrite carrier_segment_length by apply carrier_table_size_pos.
  rewrite carrier_table_size_eq. split; lia.
Qed.

(** ** C3: the cursor *)

(** C3: after reads of lengths [ns] the cursor is
    [(cursor + sum ns) mod carrier_table_size], it is inside the table, and
    two series of reads of the same total leave the same cursor. *)
Theorem cursor_after_reads (ns : list nat) (g : Globals) :
  (carrier_idx g < carrier_table_size)%nat ->
  carrier_idx (run_reads ns g) = ((carrier_idx g + list_sum ns) mod carrier_table_size)%nat /\
  (carrier_idx (run_reads ns g) < carrier_table_size)%nat /\
  (forall ns', list_sum ns' = list_sum ns ->
     carrier_idx (run_reads ns' g) = carrier_idx (run_reads ns g)).
Proof.
  intros Hg. split; [| split].
  - now apply run_reads_cursor.
  - rewrite run_reads_cursor by assumption.
    apply Nat.mod_upper_bound. pose proof carrier_table_size_pos. lia.
  - intros ns' Hsum. rewrite !run_reads_cursor by assumption. now rewrite Hsum.
Qed.

Lemma cursor_after_reads_witness :
  carrier_idx (run_reads [256; 4800; 4000]%nat initial_globals)
  = ((carrier_idx initial_globals + list_sum [256; 4800; 4000]%nat) mod carrier_table_size)%nat /\
  (carrier_idx (run_reads [256; 4800; 4000]%nat initial_globals) < carrier_table_size)%nat /\
  (forall ns', list_sum ns' = list_sum [256; 4800; 4000]%nat ->
     carrier_idx (run_reads ns' initial_globals)
     = carrier_idx (run_reads [256; 4800; 4000]%nat initial_globals)).
Proof.
  apply (cursor_after_reads [256; 4800; 4000]%nat initial_globals).
  rewrite carrier_table_size_eq. cbn [carrier_idx initial_globals]. lia.
Defined.

(** ** C5: the push-to-talk gate *)

Lemma assign_same_length (rows : nat) (v : list R) :
  length v = rows -> assign rows v = Ok v.
Proof. intros H. unfold assign. now rewrite H, Nat.eqb_refl. Qed.

Lemma write_stereo_same_length (rows : nat) (v : list R) (g : Globals) :
  length v = rows -> write_stereo rows v g = (Ok (v, v), g).
Proof.
  intros H. unfold write_stereo, bind, lift, ret.
  now rewrite (assign_same_length _ _ H).
Qed.

Lemma np_zeros_length (n : nat) : length (np_zeros n) = n.
Proof. apply repeat_length. Qed.

(** C5: with push-to-talk on and the talk key not held, the callback writes
    [frames] zeros to both channels whatever the input block, the pitch and
    the robotic flag are, and leaves the globals (the carrier cursor with
    them) untouched: the pipeline is not run. *)
Theorem ptt_gate_silence (indata : InData) (g : Globals) :
  push_to_talk_enabled g = true ->
  is_talking g = false ->
  audio_callback indata g
  = (Ok (repeat 0 (frames indata), repeat 0 (frames indata)), g).
Proof.
  intros Hptt Htalk. unfold audio_callback, bind, read.
  rewrite Hptt, Htalk. cbn [andb negb].
  apply write_stereo_same_length, np_zeros_length.
Qed.

Lemma ptt_gate_silence_witness :
  audio_callback (mkInData 3 0 (fun _ _ => 1)) (mkGlobals 3.0 true true false 0)
  = (Ok ([0; 0; 0], [0; 0; 0]), mkGlobals 3.0 true true false 0).
Proof.
  apply (ptt_gate_silence (mkInData 3 0 (fun _ _ => 1)) (mkGlobals 3.0 true true false 0));
    reflexivity.
Defined.

(** ** C7: the bypass of the pitch shifter *)

Lemma pitch_shift_fast_under_threshold (audio : list R) (semitones : R) :
  Rabs semitones < 0.1 -> pitch_shift_fast audio semitones = Ok audio.
Proof.
  intros H. unfold pitch_shift_fast.
  destruct (Rlt_dec (Rabs semitones) 0.1) as [_ | Hn]; [reflexivity | contradiction].
Qed.

(** C7: below a tenth of a semitone in absolute value, [pitch_shift_fast]
    returns its input itself.  (The function takes no sample rate: the
    module constant is not consulted on this path.) *)
Theorem pitch_shift_fast_bypass (audio : list R) (semitones : R) :
  Rabs semitones < 0.1 ->
  pitch_shift_fast audio semitones = Ok audio.
Proof. exact (pitch_shift_fast_under_threshold audio semitones). Qed.

Lemma pitch_shift_fast_bypass_witness :
  Rabs 0 < 0.1 /\ pitch_shift_fast [0.5; -0.25; 1] 0 = Ok [0.5; -0.25; 1].
Proof.
  assert (H : Rabs 0 < 0.1) by (rewrite Rabs_R0; lra).
  split; [exact H | exact (pitch_shift_fast_bypass [0.5; -0.25; 1] 0 H)].
Defined.

(** ** C10: talking only under push-to-talk *)

Lemma handle_key_invariant (key : ascii) (next1 next2 : option ascii) (g g' : Globals) :
  talking_implies_ptt g ->
  handle_key key next1 next2 g = Some g' ->
  talking_implies_ptt g'.
Proof.
  unfold talking_implies_ptt, handle_key. intros Hinv H.
  repeat match type of H with
         | (if ?c then _ else _) = _ => destruct c
         | match ?o with Some _ => _ | None => _ end = _ => destruct o
         | Some _ = Some _ => injection H as <-
         | None = Some _ => discriminate H
         end;
    try assumption;
    destruct g as [p r ptt t c]; cbn in *; destruct ptt, t; cbn in *; auto; discriminate.
Qed.

Lemma main_loop_invariant_upto (n : nat) :
  forall polls g, (length polls <= n)%nat ->
    talking_implies_ptt g -> talking_implies_ptt (main_loop polls g).
Proof.
  induction n as [| n IH]; intros polls g Hlen Hg.
  - destruct polls; [assumption | cbn in Hlen; lia].
  - destruct polls as [| [key |] rest]; cbn [main_loop]; auto; cbn [length] in Hlen.
    + destruct (is_key key ESC).
      * destruct rest as [| next1 [| next2 rest2]]; auto. cbn [length] in Hlen.
        destruct (handle_key key next1 next2 g) as [g' |] eqn:Hk; auto.
        apply IH; [lia | eapply handle_key_invariant; eauto].
      * destruct (handle_key key None None g) as [g' |] eqn:Hk; auto.
        apply IH; [lia | eapply handle_key_invariant; eauto].
    + apply IH; [lia | assumption].
Qed.

Lemma main_loop_invariant (polls : list (option ascii)) (g : Globals) :
  talking_implies_ptt g -> talking_implies_ptt (main_loop polls g).
Proof. apply (main_loop_invariant_upto (length polls)). lia. Qed.

(** C10: the default state has both flags off; from it, whatever is typed,
    [is_talking] implies [push_to_talk_enabled]; every key keeps that
    invariant; space toggles [is_talking] under push-to-talk and does nothing
    otherwise; ['p'] toggles push-to-talk and clears [is_talking] when it
    turns it off; every other key leaves both flags as they are. *)
Theorem talking_only_under_ptt :
  (push_to_talk_enabled initial_globals = false /\ is_talking initial_globals = false) /\
  (forall polls, talking_implies_ptt (main_loop polls initial_globals)) /\
  (forall key next1 next2 g g',
     talking_implies_ptt g -> handle_key key next1 next2 g = Some g' ->
     talking_implies_ptt g') /\
  (forall next1 next2 g,
     handle_key " " next1 next2 g
     = Some (if push_to_talk_enabled g then set_is_talking (negb (is_talking g)) g else g)) /\
  (forall key next1 next2 g,
     key = "p"%char \/ key = "P"%char ->
     handle_key key next1 next2 g
     = Some (if push_to_talk_enabled g
             then set_is_talking false (set_push_to_talk_enabled false g)
             else set_push_to_talk_enabled true g)) /\
  (forall key next1 next2 g g',
     key <> "p"%char -> key <> "P"%char -> key <> " "%char ->
     handle_key key next1 next2 g = Some g' -> same_flags g g').
Proof.
  split; [split; reflexivity |].
  split; [intros polls; apply main_loop_invariant; intros H; discriminate H |].
  split; [exact handle_key_invariant |].
  split; [reflexivity |].
  split.
  - intros key next1 next2 g [-> | ->]; unfold handle_key; cbn;
      destruct (push_to_talk_enabled g) eqn:E; cbn; rewrite ?E; reflexivity.
  - intros key next1 next2 g g' Hp HP Hsp H. unfold handle_key in H.
    assert (Ep : is_key key "p" = false) by now apply Ascii.eqb_neq.
    assert (EP : is_key key "P" = false) by now apply Ascii.eqb_neq.
    assert (Es : is_key key " " = false) by now apply Ascii.eqb_neq.
    rewrite Ep, EP, Es in H. cbn [orb] in H. unfold same_flags.
    repeat match type of H with
           | (if ?c then _ else _) = _ => destruct c
           | match ?o with Some _ => _ | None => _ end = _ => destruct o
           | Some _ = Some _ => injection H as <-
           | None = Some _ => discriminate H
           end; split; reflexivity.
Qed.

Lemma talking_only_under_ptt_witness :
  talking_implies_ptt (mkGlobals 3.0 true false false 0) /\
  talking_implies_ptt (mkGlobals 3.0 true true true 0) /\
  same_flags (mkGlobals 3.0 true true true 0) (mkGlobals 3.0 false true true 0).
Proof.
  destruct talking_only_under_ptt as (_ & Hrun & Hstep & Hspace & _ & Hother).
  split; [exact (Hrun []) |].
  split.
  - apply (Hstep " "%char None None (mkGlobals 3.0 true true false 0)).
    + intros H; discriminate H.
    + reflexivity.
  - apply (Hother "r"%char None None (mkGlobals 3.0 true true true 0));
      [discriminate | discriminate | discriminate | reflexivity].
Defined.

(** ** C4: the range of the robotic effect *)

Lemma tanh_bounds (x : R) : -1 < tanh x < 1.
Proof.
  unfold tanh, sinh, cosh.
  pose proof (exp_pos x) as Ha. pose proof (exp_pos (- x)) as Hb.
  set (a := exp x) in *. set (b := exp (- x)) in *.
  replace ((a - b) / 2 / ((a + b) / 2)) with ((a - b) / (a + b)) by (field; lra).
  split.
  - apply Rmult_lt_reg_r with (a + b); [lra |].
    unfold Rdiv. rewrite Rmult_assoc, Rinv_l by lra. lra.
  - apply Rmult_lt_reg_r with (a + b); [lra |].
    unfold Rdiv. rewrite Rmult_assoc, Rinv_l by lra. lra.
Qed.

(** The last stage bounds the output whatever the sample it is given. *)
Lemma soft_clip_bounds (y : R) : -0.9 < soft_clip y < 0.9.
Proof. unfold soft_clip. pose proof (tanh_bounds (y * 1.2)). lra. Qed.

Lemma map2_length (f : R -> R -> R) (a b : list R) :
  length b = length a -> length (map2 f a b) = length a.
Proof. intros H. unfold map2. rewrite length_map, length_combine, H. lia. Qed.

Lemma np_binop_same_length (f : R -> R -> R) (a b : list R) :
  length b = length a -> np_binop f a b = Ok (map2 f a b).
Proof. intros H. unfold np_binop. now rewrite H, Nat.eqb_refl. Qed.

Lemma np_scale_length (a : list R) (k : R) : length (np_scale a k) = length a.
Proof. apply length_map. Qed.

Lemma ring_modulate_same_length (audio carrier : list R) (intensity : R) :
  length carrier = length audio ->
  ring_modulate audio carrier intensity
  = Ok (map2 Rplus (np_scale (map2 Rmult audio carrier) intensity)
                   (np_scale audio (1 - intensity))).
Proof.
  intros H. unfold ring_modulate.
  rewrite (np_binop_same_length _ _ _ H). cbn [bindR].
  apply np_binop_same_length.
  rewrite !np_scale_length. now rewrite map2_length.
Qed.

Lemma robotic_shape_same_length (audio carrier : list R) (intensity : R) :
  length carrier = length audio ->
  exists out,
    robotic_shape audio carrier intensity = Ok out /\
    length out = length audio /\
    Forall (fun y => -0.9 < y < 0.9) out.
Proof.
  intros H. unfold robotic_shape.
  rewrite (ring_modulate_same_length _ _ _ H). cbn [bindR].
  eexists. split; [reflexivity |]. split.
  - rewrite !length_map. rewrite map2_length.
    + rewrite np_scale_length. now apply map2_length.
    + rewrite !np_scale_length. now rewrite map2_length.
  - apply Forall_map. apply Forall_forall. intros y _. apply soft_clip_bounds.
Qed.

(** ** The margin of the robotic effect *)

(** On samples in [[-1, 1]] the effect does not come near its bound: the
    soft clip is never given more than 1.2 in absolute value, and the
    output stays within [0.9 * tanh 1.2] (about 0.75). *)

Lemma tanh_increasing (x y : R) : x <= y -> tanh x <= tanh y.
Proof.
  intros Hxy. unfold tanh, sinh, cosh.
  pose proof (exp_pos x) as Ha. pose proof (exp_pos (- x)) as Hb.
  pose proof (exp_pos y) as Hc. pose proof (exp_pos (- y)) as Hd.
  assert (Hac : exp x <= exp y).
  { destruct Hxy as [Hlt | ->]; [left; now apply exp_increasing | right; reflexivity]. }
  assert (Hdb : exp (- y) <= exp (- x)).
  { destruct Hxy as [Hlt | ->]; [left; apply exp_increasing; lra | right; reflexivity]. }
  set (a := exp x) in *. set (b := exp (- x)) in *.
  set (c := exp y) in *. set (d := exp (- y)) in *.
  replace ((a - b) / 2 / ((a + b) / 2)) with ((a - b) / (a + b)) by (field; lra).
  replace ((c - d) / 2 / ((c + d) / 2)) with ((c - d) / (c + d)) by (field; lra).
  apply Rmult_le_reg_r with ((a + b) * (c + d)); [nra |].
  replace ((a - b) / (a + b) * ((a + b) * (c + d))) with ((a - b) * (c + d)) by (field; lra).
  replace ((c - d) / (c + d) * ((a + b) * (c + d))) with ((c - d) * (a + b)) by (field; lra).
  nra.
Qed.

Lemma tanh_opp (x : R) : tanh (- x) = - tanh x.
Proof.
  unfold tanh, sinh, cosh. rewrite Ropp_involutive.
  pose proof (exp_pos x). pose proof (exp_pos (- x)). field. lra.
Qed.

Lemma soft_clip_margin (q : R) : -1 <= q <= 1 -> Rabs (soft_clip q) <= 0.9 * tanh 1.2.
Proof.
  intros Hq. unfold soft_clip.
  assert (Hup : tanh (q * 1.2) <= tanh 1.2) by (apply tanh_increasing; lra).
  assert (Hlo : - tanh 1.2 <= tanh (q * 1.2)).
  { rewrite <- tanh_opp. apply tanh_increasing; lra. }
  apply Rabs_le. lra.
Qed.

Lemma np_round_within (b : Z) (x : R) :
  - IZR b <= x <= IZR b -> - IZR b <= np_round x <= IZR b.
Proof.
  intros [Hlo Hhi]. unfold np_round.
  destruct (base_Int_part x) as [Hf1 Hf2].
  assert (Hfl : (- b <= Int_part x)%Z).
  { apply Z.lt_succ_r, Z.lt_pred_lt_succ. apply lt_IZR.
    unfold Z.pred. rewrite plus_IZR, opp_IZR. cbn [IZR IPR]. lra. }
  apply IZR_le in Hfl. rewrite opp_IZR in Hfl.
  assert (Hup : x - IZR (Int_part x) > 0 -> IZR (Int_part x + 1) <= IZR b).
  { intros Hd. apply IZR_le. apply Z.le_succ_l. apply lt_IZR. lra. }
  rewrite plus_IZR in *. cbn [IZR IPR] in *.
  destruct (Rlt_dec (x - IZR (Int_part x)) (1 / 2)); [lra |].
  destruct (Rlt_dec (1 / 2) (x - IZR (Int_part x))); [lra |].
  destruct (Z.even (Int_part x)); lra.
Qed.

Lemma bit_reduce_within (y : R) : -1 <= y <= 1 -> -1 <= bit_reduce y <= 1.
Proof.
  intros Hy. unfold bit_reduce, bits.
  assert (E : 2 ^ 10 = IZR 1024) by (simpl; lra). rewrite E.
  pose proof (np_round_within 1024 (y * IZR 1024)) as H.
  assert (Hr : - IZR 1024 <= np_round (y * IZR 1024) <= IZR 1024) by (apply H; lra).
  unfold Rdiv. lra.
Qed.

Lemma Forall_map2 (P Q S : R -> Prop) (f : R -> R -> R) (a b : list R) :
  (forall x y, P x -> Q y -> S (f x y)) ->
  Forall P a -> Forall Q b -> Forall S (map2 f a b).
Proof.
  intros Hf Ha. revert b. unfold map2.
  induction Ha as [| x a Hx _ IH]; intros b Hb; [constructor |].
  destruct Hb as [| y b Hy Hb]; cbn; constructor; auto.
Qed.

Lemma robotic_effect_margin (audio carrier : list R) (intensity : R) :
  Forall (fun x => -1 <= x <= 1) audio ->
  Forall (fun c => -1 <= c <= 1) carrier ->
  0 <= intensity <= 1 ->
  length carrier = length audio ->
  exists out,
    robotic_shape audio carrier intensity = Ok out /\
    Forall (fun y => Rabs y <= 0.9 * tanh 1.2) out /\
    0.9 * tanh 1.2 < 0.9.
Proof.
  intros Ha Hc Hi Hlen. unfold robotic_shape.
  rewrite (ring_modulate_same_length _ _ _ Hlen). cbn [bindR].
  eexists. split; [reflexivity |]. split; [| pose proof (tanh_bounds 1.2); lra].
  apply Forall_map, Forall_map.
  eapply Forall_impl; [intros y Hy; apply soft_clip_margin, bit_reduce_within; exact Hy |].
  apply (Forall_map2 (fun v => - intensity <= v <= intensity)
                     (fun v => - (1 - intensity) <= v <= 1 - intensity)).
  - intros x y Hx Hy. lra.
  - unfold np_scale. apply Forall_map.
    eapply Forall_impl;
      [| apply (Forall_map2 (fun x => -1 <= x <= 1) (fun c => -1 <= c <= 1)
                            (fun v => -1 <= v <= 1) Rmult audio carrier); auto].
    + intros v Hv. cbn beta. nra.
    + intros x c Hx Hcc. nra.
  - unfold np_scale. apply Forall_map.
    eapply Forall_impl; [| exact Ha]. intros x Hx. cbn beta. nra.
Qed.

(** C4: on a block and a carrier segment of its length, both with samples
    in [[-1, 1]], and an intensity in [[0, 1]], the robotic effect returns a
    block of the same length, every sample of which is strictly between
    -0.9 and 0.9 (and in fact no larger than [0.9 * tanh 1.2] in absolute
    value). *)
Theorem robotic_effect_bounded (audio carrier : list R) (intensity : R) :
  Forall (fun x => -1 <= x <= 1) audio ->
  Forall (fun c => -1 <= c <= 1) carrier ->
  0 <= intensity <= 1 ->
  length carrier = length audio ->
  exists out,
    robotic_shape audio carrier intensity = Ok out /\
    length out = length audio /\
    Forall (fun y => -0.9 < y < 0.9) out /\
    Forall (fun y => Rabs y <= 0.9 * tanh 1.2) out.
Proof.
  intros Ha Hc Hi Hlen.
  destruct (robotic_shape_same_length audio carrier intensity Hlen) as (out & Hout & Hl & Hb).
  destruct (robotic_effect_margin audio carrier intensity Ha Hc Hi Hlen) as (out' & Hout' & Hm & _).
  rewrite Hout in Hout'. injection Hout' as <-.
  exists out. auto.
Qed.

Lemma robotic_effect_bounded_witness :
  exists out,
    robotic_shape [1; -0.5] [0.25; -1] 0.7 = Ok out /\
    length out = length [1; -0.5] /\
    Forall (fun y => -0.9 < y < 0.9) out /\
    Forall (fun y => Rabs y <= 0.9 * tanh 1.2) out.
Proof.
  apply (robotic_effect_bounded [1; -0.5] [0.25; -1] 0.7).
  - repeat constructor; lra.
  - repeat constructor; lra.
  - lra.
  - reflexivity.
Defined.

(** The carrier that [apply_robotic_effect] reads is a sine: the block it
    returns, when the read gives as many samples as the block has, is within
    the same bounds, and the cursor has advanced by the block length. *)
Lemma apply_robotic_effect_bounded (audio : list R) (intensity : R) (g : Globals) :
  (carrier_idx g < carrier_table_size)%nat ->
  (carrier_idx g + length audio <= 2 * carrier_table_size)%nat ->
  exists out,
    apply_robotic_effect audio intensity g
    = (Ok out, set_carrier_idx ((carrier_idx g + length audio) mod carrier_table_size) g) /\
    length out = length audio /\
    Forall (fun y => -0.9 < y < 0.9) out.
Proof.
  intros Hg Hn. unfold apply_robotic_effect, bind. rewrite read_carrier_eq. unfold lift.
  destruct (robotic_shape_same_length audio (carrier_segment (carrier_idx g) (length audio)) intensity)
    as (out & Hout & Hlen & Hb).
  - rewrite carrier_segment_length by assumption. lia.
  - exists out. rewrite Hout. auto.
Qed.

(** ** The audio callback: what reaches the two output channels *)

Lemma bind_ok_inv {A B : Type} (m : M A) (k : A -> M B) (g g2 : Globals) (b : B) :
  bind m k g = (Ok b, g2) ->
  exists a g1, m g = (Ok a, g1) /\ k a g1 = (Ok b, g2).
Proof.
  unfold bind. destruct (m g) as [[a | e] g1]; intros H.
  - now exists a, g1.
  - discriminate H.
Qed.

Lemma column0_length (indata : InData) : length (column0 indata) = frames indata.
Proof. unfold column0. now rewrite length_map, length_seq. Qed.

(** With one channel, flattening gives the only column. *)
Lemma mono_of_column0 (indata : InData) : mono_of indata = column0 indata.
Proof.
  unfold mono_of, shape1.
  destruct (Nat.ltb_spec 1 (S (extra_channels indata))) as [H | H]; [reflexivity |].
  assert (E : extra_channels indata = 0%nat) by lia.
  unfold flatten, column0, shape1. rewrite E. cbn [seq map].
  induction (seq 0 (frames indata)) as [| r rs IH]; cbn; [reflexivity | now rewrite IH].
Qed.

Lemma mono_of_length (indata : InData) : length (mono_of indata) = frames indata.
Proof. rewrite mono_of_column0. apply column0_length. Qed.

Lemma mono_of_first (indata : InData) (k : R) :
  frames indata <> 0%nat ->
  nth 0 (np_scale (mono_of indata) k) 0 = sample indata 0 0 * k.
Proof.
  intros H. rewrite mono_of_column0. unfold np_scale, column0.
  destruct (frames indata); [contradiction | reflexivity].
Qed.

Lemma nth_map_seq (f : nat -> R) (n i : nat) :
  (i < n)%nat -> nth i (map f (seq 0 n)) 0 = f i.
Proof.
  intros H. rewrite (nth_indep _ 0 (f 0%nat)) by now rewrite length_map, length_seq.
  rewrite map_nth, seq_nth by assumption. reflexivity.
Qed.

Lemma mono_of_nth (indata : InData) (i : nat) :
  (i < frames indata)%nat -> nth i (mono_of indata) 0 = sample indata i 0.
Proof.
  intros H. rewrite mono_of_column0. unfold column0. now rewrite nth_map_seq.
Qed.

Lemma np_scale_nth (a : list R) (k : R) (i : nat) :
  nth i (np_scale a k) 0 = nth i a 0 * k.
Proof.
  unfold np_scale. rewrite <- (Rmult_0_l k) at 1.
  apply (map_nth (fun v => v * k)).
Qed.

Lemma np_clip_nth (lo hi : R) (a : list R) (i : nat) :
  (i < length a)%nat -> nth i (np_clip lo hi a) 0 = Rmin hi (Rmax (nth i a 0) lo).
Proof.
  intros H. unfold np_clip.
  rewrite (nth_indep _ 0 (Rmin hi (Rmax 0 lo))) by now rewrite length_map.
  apply (map_nth (fun v => Rmin hi (Rmax v lo))).
Qed.

Lemma audio_callback_eq (indata : InData) (g : Globals) :
  audio_callback indata g =
  if muted g
  then write_stereo (frames indata) (np_zeros (frames indata)) g
  else try_except (process (frames indata) (mono_of indata))
                  (fun _ => passthrough (frames indata) (mono_of indata)) g.
Proof.
  unfold audio_callback, bind, read, muted.
  now destruct (push_to_talk_enabled g && negb (is_talking g))%bool.
Qed.

Lemma np_clip_in_range (a : list R) : Forall in_clip_range (np_clip (-0.95) 0.95 a).
Proof.
  unfold np_clip. apply Forall_map, Forall_forall. intros v _.
  unfold in_clip_range, Rmin, Rmax.
  destruct (Rle_dec v (-0.95)); destruct (Rle_dec 0.95 _); lra.
Qed.

Lemma assign_ok_inv (P : R -> Prop) (rows : nat) (v w : list R) :
  assign rows v = Ok w -> Forall P v -> length w = rows /\ Forall P w.
Proof.
  unfold assign. intros H Hv.
  destruct (Nat.eqb_spec (length v) rows) as [E | _].
  - injection H as <-. auto.
  - destruct (Nat.eqb_spec (length v) 1) as [E1 | _]; [| discriminate H].
    injection H as <-. split; [apply repeat_length |].
    apply Forall_forall. intros x Hx. apply repeat_spec in Hx. subst x.
    destruct v as [| x [| ? ?]]; try discriminate E1. now inversion Hv.
Qed.

Lemma write_stereo_ok_inv (P : R -> Prop) (rows : nat) (v : list R)
    (g g' : Globals) (ch0 ch1 : list R) :
  write_stereo rows v g = (Ok (ch0, ch1), g') ->
  Forall P v ->
  g' = g /\ (length ch0 = rows /\ Forall P ch0) /\ (length ch1 = rows /\ Forall P ch1).
Proof.
  unfold write_stereo, bind, lift, ret. intros H Hv.
  destruct (assign rows v) as [w |] eqn:E; [| discriminate H].
  injection H as <- <- <-.
  pose proof (assign_ok_inv P _ _ _ E Hv). auto.
Qed.

(** When the body of the [try] completes, what it has written to the two
    channels was clipped. *)
Lemma process_ok_in_range (rows : nat) (mono : list R) (g g1 : Globals) (ch0 ch1 : list R) :
  process rows mono g = (Ok (ch0, ch1), g1) ->
  (length ch0 = rows /\ Forall in_clip_range ch0) /\
  (length ch1 = rows /\ Forall in_clip_range ch1).
Proof.
  unfold process. intros H.
  apply bind_ok_inv in H. destruct H as (pitch & ga & _ & H).
  apply bind_ok_inv in H. destruct H as (shifted & gb & _ & H).
  apply bind_ok_inv in H. destruct H as (robotic & gc & _ & H).
  apply bind_ok_inv in H. destruct H as (shifted' & gd & _ & H).
  eapply write_stereo_ok_inv in H; [apply H | apply np_clip_in_range].
Qed.

Lemma passthrough_eq (indata : InData) (g : Globals) :
  passthrough (frames indata) (mono_of indata) g
  = (Ok (np_scale (mono_of indata) 1.5, np_scale (mono_of indata) 1.5), g).
Proof.
  unfold passthrough. apply write_stereo_same_length.
  rewrite np_scale_length. apply mono_of_length.
Qed.

Lemma callback_returns (indata : InData) (g : Globals) :
  exists out g', audio_callback indata g = (Ok out, g').
Proof.
  rewrite audio_callback_eq. destruct (muted g).
  - rewrite write_stereo_same_length by apply np_zeros_length. eauto.
  - unfold try_except.
    destruct (process _ _ g) as [[out | e] g1]; [eauto |].
    rewrite passthrough_eq. eauto.
Qed.

Lemma callback_on_exception (indata : InData) (g g1 : Globals) (e : exn) :
  muted g = false ->
  process (frames indata) (mono_of indata) g = (Raise e, g1) ->
  audio_callback indata g
  = (Ok (np_scale (mono_of indata) 1.5, np_scale (mono_of indata) 1.5), g1).
Proof.
  intros Hopen Hraise. rewrite audio_callback_eq, Hopen. unfold try_except.
  rewrite Hraise. apply passthrough_eq.
Qed.

Lemma callback_on_completion (indata : InData) (g g1 : Globals) (out : OutData) :
  muted g = false ->
  process (frames indata) (mono_of indata) g = (Ok out, g1) ->
  audio_callback indata g = (Ok out, g1).
Proof.
  intros Hopen Hok. rewrite audio_callback_eq, Hopen. unfold try_except.
  now rewrite Hok.
Qed.

Lemma pow2_overflow (y : R) : 1024 <= y -> pow2 y = Raise OverflowError.
Proof. intros H. unfold pow2. destruct (Rle_dec 1024 y); [reflexivity | contradiction]. Qed.

(** From 12288 semitones on (1024 octaves) the pitch ratio is no double:
    line 34 raises. *)
Lemma pitch_shift_fast_overflow (audio : list R) (semitones : R) :
  12288 <= semitones -> pitch_shift_fast audio semitones = Raise OverflowError.
Proof.
  intros H. unfold pitch_shift_fast.
  destruct (Rlt_dec (Rabs semitones) 0.1) as [Hlt | _].
  - rewrite Rabs_right in Hlt by lra. lra.
  - rewrite pow2_overflow by lra. reflexivity.
Qed.

Lemma process_pitch_overflow (rows : nat) (mono : list R) (g : Globals) :
  12288 <= current_pitch g -> process rows mono g = (Raise OverflowError, g).
Proof.
  intros H. unfold process, bind, read, lift.
  destruct (Rlt_dec 0.1 (Rabs (current_pitch g))) as [_ | Hn].
  - now rewrite pitch_shift_fast_overflow.
  - rewrite Rabs_right in Hn by lra. lra.
Qed.

(** A block longer than what one wrap of the wavetable can cover gets a
    shorter carrier: the product of line 79 raises, after the cursor has
    been advanced. *)
Lemma apply_robotic_effect_too_long (audio : list R) (intensity : R) (g : Globals) :
  (carrier_idx g < carrier_table_size)%nat ->
  (2 * carrier_table_size - carrier_idx g < length audio)%nat ->
  apply_robotic_effect audio intensity g
  = (Raise ValueError,
     set_carrier_idx ((carrier_idx g + length audio) mod carrier_table_size) g).
Proof.
  intros Hg Hn. unfold apply_robotic_effect, bind. rewrite read_carrier_eq. unfold lift.
  unfold robotic_shape, ring_modulate, np_binop.
  pose proof (carrier_segment_length _ (length audio) Hg) as Hlen.
  pose proof carrier_table_size_pos as Hpos.
  destruct (Nat.eqb_spec (length audio) (length (carrier_segment (carrier_idx g) (length audio))));
    [lia |].
  destruct (Nat.eqb_spec (length (carrier_segment (carrier_idx g) (length audio))) 1); [lia |].
  destruct (Nat.eqb_spec (length audio) 1); [lia |].
  reflexivity.
Qed.

Lemma process_block_too_long (rows : nat) (mono : list R) (g : Globals) :
  Rabs (current_pitch g) <= 0.1 ->
  robotic_enabled g = true ->
  (carrier_idx g < carrier_table_size)%nat ->
  (2 * carrier_table_size - carrier_idx g < length mono)%nat ->
  process rows mono g
  = (Raise ValueError,
     set_carrier_idx ((carrier_idx g + length mono) mod carrier_table_size) g).
Proof.
  intros Hp Hr Hc Hn. unfold process, bind, read, ret.
  destruct (Rlt_dec 0.1 (Rabs (current_pitch g))); [lra |].
  rewrite Hr. now rewrite apply_robotic_effect_too_long.
Qed.

(** ** C9: exceptions of the pipeline stay inside the callback *)

(** C9: the callback returns on every block and in every state, it never
    raises; and when the gate is open and the body of the [try] raises,
    whatever the exception and wherever in the body, both channels receive
    the mono input times 1.5, not clipped: [frames] samples each, sample [i]
    being 1.5 times sample [i] of the first input channel; and the globals
    stay as the body left them. *)
Theorem callback_catches_and_passes_through (indata : InData) (g : Globals) :
  (exists out g', audio_callback indata g = (Ok out, g')) /\
  (forall e g1,
     muted g = false ->
     process (frames indata) (mono_of indata) g = (Raise e, g1) ->
     exists ch,
       audio_callback indata g = (Ok (ch, ch), g1) /\
       length ch = frames indata /\
       forall i, (i < frames indata)%nat -> nth i ch 0 = sample indata i 0 * 1.5).
Proof.
  split.
  - apply callback_returns.
  - intros e g1 Hopen Hraise. exists (np_scale (mono_of indata) 1.5).
    split; [now apply (callback_on_exception indata g g1 e) |].
    split; [rewrite np_scale_length; apply mono_of_length |].
    intros i Hi. now rewrite np_scale_nth, mono_of_nth.
Qed.

(** A block of the two samples 0.5 and -1 with the pitch at 12288 semitones:
    line 34 raises, both channels receive 0.75 and -1.5. *)
Lemma callback_catches_and_passes_through_witness :
  audio_callback (mkInData 2 0 (fun r _ => if (r =? 0)%nat then 0.5 else -1))
                 (mkGlobals 12288 true false false 0)
  = (Ok ([0.75; -1.5], [0.75; -1.5]), mkGlobals 12288 true false false 0).
Proof.
  destruct (proj2 (callback_catches_and_passes_through
                     (mkInData 2 0 (fun r _ => if (r =? 0)%nat then 0.5 else -1))
                     (mkGlobals 12288 true false false 0))
                  OverflowError (mkGlobals 12288 true false false 0))
    as (ch & Hcb & Hlen & Hnth).
  - reflexivity.
  - apply process_pitch_overflow. cbn [current_pitch]. lra.
  - rewrite Hcb. cbn [frames] in Hlen, Hnth.
    destruct ch as [| a [| b [| c ch]]]; try discriminate Hlen.
    pose proof (Hnth 0%nat ltac:(lia)) as H0. pose proof (Hnth 1%nat ltac:(lia)) as H1.
    cbn in H0, H1.
    replace a with 0.75 by lra. replace b with (-1.5) by lra. reflexivity.
Defined.

(** ** The pitch shifter *)

Lemma Rpower2_pos (y : R) : 0 < Rpower 2 y.
Proof. unfold Rpower. apply exp_pos. Qed.

Lemma pow2_in_range (y : R) : -1075 < y < 1024 -> pow2 y = Ok (Rpower 2 y).
Proof.
  intros [Hlo Hhi]. unfold pow2.
  destruct (Rle_dec 1024 y); [lra |].
  destruct (Rle_dec y (-1075)); [lra | reflexivity].
Qed.

Lemma quotient_nonneg (ratio : R) (i : nat) : 0 < ratio -> 0 <= INR i / ratio.
Proof.
  intros Hr. apply Rmult_le_pos; [apply pos_INR |].
  left. now apply Rinv_0_lt_compat.
Qed.

Lemma quotient_mono (ratio : R) (i j : nat) :
  0 < ratio -> (i <= j)%nat -> INR i / ratio <= INR j / ratio.
Proof.
  intros Hr Hij. apply Rmult_le_compat_r; [| now apply le_INR].
  left. now apply Rinv_0_lt_compat.
Qed.

(** On a quotient that is not negative [int] rounds down. *)
Lemma int_of_quotient (ratio : R) (i : nat) :
  0 < ratio -> INR i / ratio < float_inf ->
  (let? q := truediv i ratio in py_int q) = Ok (target ratio i).
Proof.
  intros Hr Hq. unfold truediv.
  destruct (Req_dec_T ratio 0) as [E | _]; [lra |]. cbn [bindR].
  pose proof (quotient_nonneg ratio i Hr) as Hq0.
  unfold py_int. rewrite Rabs_right by lra.
  destruct (Rle_dec float_inf (INR i / ratio)); [lra |].
  unfold trunc. destruct (Rle_dec 0 (INR i / ratio)); [reflexivity | contradiction].
Qed.

Lemma remap_loop_ok (ratio : R) (spectrum : list C) (idxs : list nat) :
  0 < ratio ->
  (forall i, In i idxs -> INR i / ratio < float_inf) ->
  forall acc,
    remap_loop ratio spectrum idxs acc = Ok (fold_left (remap_step ratio spectrum) idxs acc).
Proof.
  intros Hr. induction idxs as [| i idxs IH]; intros Hq acc; cbn [remap_loop fold_left].
  - reflexivity.
  - pose proof (int_of_quotient ratio i Hr (Hq i (or_introl eq_refl))) as E.
    unfold bindR in E |- *.
    destruct (truediv i ratio) as [q |]; [| discriminate E].
    rewrite E. apply IH. intros j Hj. apply Hq. now right.
Qed.

Lemma add_at_length (k : nat) (v : C) (a : list C) : length (add_at k v a) = length a.
Proof.
  revert k. induction a as [| x t IH]; intros [| k]; cbn; try reflexivity.
  now rewrite IH.
Qed.

Lemma add_at_nth_same (k : nat) (v : C) (a : list C) :
  (k < length a)%nat -> nth k (add_at k v a) czero = cadd (nth k a czero) v.
Proof.
  revert k. induction a as [| x t IH]; intros [| k] H; cbn in *; try lia; try reflexivity.
  apply IH. lia.
Qed.

Lemma add_at_nth_other (j k : nat) (v : C) (a : list C) :
  j <> k -> nth k (add_at j v a) czero = nth k a czero.
Proof.
  revert j k. induction a as [| x t IH]; intros [| j] [| k] H; cbn; try reflexivity; try lia.
  apply IH. lia.
Qed.

Lemma remap_step_length (ratio : R) (spectrum acc : list C) (i : nat) :
  length (remap_step ratio spectrum acc i) = length acc.
Proof.
  unfold remap_step. destruct (_ && _)%bool; [apply add_at_length | reflexivity].
Qed.

Lemma remap_fold_length (ratio : R) (spectrum : list C) (idxs : list nat) :
  forall acc, length (fold_left (remap_step ratio spectrum) idxs acc) = length acc.
Proof.
  induction idxs as [| i idxs IH]; intros acc; cbn [fold_left]; [reflexivity |].
  now rewrite IH, remap_step_length.
Qed.

Lemma remap_step_nth (ratio : R) (spectrum acc : list C) (i k : nat) :
  (k < length acc)%nat ->
  nth k (remap_step ratio spectrum acc i) czero
  = if (target ratio i =? Z.of_nat k)%Z
    then cadd (nth k acc czero) (nth i spectrum czero)
    else nth k acc czero.
Proof.
  intros Hk. unfold remap_step.
  destruct (Z.eqb_spec (target ratio i) (Z.of_nat k)) as [E | N].
  - rewrite E.
    replace ((0 <=? Z.of_nat k)%Z && (Z.of_nat k <? Z.of_nat (length acc))%Z)%bool with true.
    + rewrite Nat2Z.id. now apply add_at_nth_same.
    + symmetry. apply andb_true_iff. split; [apply Z.leb_le | apply Z.ltb_lt]; lia.
  - destruct (Z.leb_spec 0 (target ratio i)) as [H0 | H0]; cbn [andb]; [| reflexivity].
    destruct (_ <? _)%Z; [| reflexivity].
    apply add_at_nth_other. lia.
Qed.

(** Each bin of the result is what it was plus, in order, the source bins
    sent to it. *)
Lemma remap_fold_nth (ratio : R) (spectrum : list C) (idxs : list nat) (k : nat) :
  forall acc, (k < length acc)%nat ->
    nth k (fold_left (remap_step ratio spectrum) idxs acc) czero
    = fold_left cadd (map (fun i => nth i spectrum czero) (sources ratio k idxs))
                (nth k acc czero).
Proof.
  induction idxs as [| i idxs IH]; intros acc Hk; cbn [fold_left sources filter map].
  - reflexivity.
  - rewrite IH by now rewrite remap_step_length.
    rewrite remap_step_nth by assumption. fold (sources ratio k idxs).
    now destruct (target ratio i =? Z.of_nat k)%Z.
Qed.

Lemma rfft_ok (audio : list R) :
  audio <> [] ->
  rfft audio = Ok (map (dft_bin audio) (seq 0 (length audio / 2 + 1))).
Proof. intros H. unfold rfft. destruct audio; [contradiction | reflexivity]. Qed.

Lemma irfft_ok (a : list C) (n : nat) :
  n <> 0%nat -> irfft a n = Ok (map (idft_sample a n) (seq 0 n)).
Proof. intros H. unfold irfft. destruct n; [contradiction | reflexivity]. Qed.

Lemma bins_in_range (n : nat) (semitones : R) (i : nat) :
  pitch_in_range n semitones ->
  In i (seq 0 (n / 2 + 1)) ->
  INR i / Rpower 2 (semitones / 12.0) < float_inf.
Proof.
  intros [_ Hq] Hi. apply in_seq in Hi.
  eapply Rle_lt_trans; [| exact Hq].
  apply quotient_mono; [apply Rpower2_pos | lia].
Qed.

Lemma shift_bins_ok (n : nat) (semitones : R) (spectrum : list C) :
  pitch_in_range n semitones ->
  length spectrum = (n / 2 + 1)%nat ->
  shift_bins (Rpower 2 (semitones / 12.0)) spectrum
  = Ok (fold_left (remap_step (Rpower 2 (semitones / 12.0)) spectrum)
                  (seq 0 (n / 2 + 1)) (repeat czero (n / 2 + 1))).
Proof.
  intros Hr Hlen. unfold shift_bins. rewrite Hlen.
  apply remap_loop_ok; [apply Rpower2_pos |].
  intros i Hi. now apply (bins_in_range n).
Qed.

Lemma nth_repeat_czero (k m : nat) : nth k (repeat czero m) czero = czero.
Proof.
  revert k. induction m as [| m IH]; intros [| k]; cbn; auto.
Qed.

(** The shifter on a block it does not bypass, step by step. *)
Lemma pitch_shift_fast_steps (audio : list R) (semitones : R) :
  audio <> [] ->
  0.1 <= Rabs semitones ->
  pitch_in_range (length audio) semitones ->
  exists spectrum new_spectrum shifted,
    rfft audio = Ok spectrum /\
    length spectrum = (length audio / 2 + 1)%nat /\
    shift_bins (Rpower 2 (semitones / 12.0)) spectrum = Ok new_spectrum /\
    length new_spectrum = (length audio / 2 + 1)%nat /\
    (forall k, (k < length audio / 2 + 1)%nat ->
       nth k new_spectrum czero
       = csum (map (fun i => nth i spectrum czero)
                   (sources (Rpower 2 (semitones / 12.0)) k (seq 0 (length audio / 2 + 1))))) /\
    irfft new_spectrum (length audio) = Ok shifted /\
    length shifted = length audio /\
    shifted = map (idft_sample new_spectrum (length audio)) (seq 0 (length audio)) /\
    pitch_shift_fast audio semitones = normalize audio shifted.
Proof.
  intros Hne Hs Hr.
  set (n := length audio) in *.
  assert (Hn : n <> 0%nat) by (subst n; destruct audio; [contradiction | discriminate]).
  assert (Hlen : length (map (dft_bin audio) (seq 0 (n / 2 + 1))) = (n / 2 + 1)%nat)
    by now rewrite length_map, length_seq.
  exists (map (dft_bin audio) (seq 0 (n / 2 + 1))).
  exists (fold_left (remap_step (Rpower 2 (semitones / 12.0))
                                (map (dft_bin audio) (seq 0 (n / 2 + 1))))
                    (seq 0 (n / 2 + 1)) (repeat czero (n / 2 + 1))).
  eexists.
  split; [now apply rfft_ok |].
  split; [exact Hlen |].
  split; [now apply (shift_bins_ok n) |].
  split; [now rewrite remap_fold_length, repeat_length |].
  split.
  { intros k Hk. rewrite remap_fold_nth by now rewrite repeat_length.
    now rewrite nth_repeat_czero. }
  split; [now apply irfft_ok |].
  split; [now rewrite length_map, length_seq |].
  split; [reflexivity |].
  unfold pitch_shift_fast.
  destruct (Rlt_dec (Rabs semitones) 0.1) as [Hlt | _]; [lra |].
  rewrite pow2_in_range by apply Hr. cbn [bindR].
  rewrite rfft_ok by assumption. cbn [bindR]. fold n.
  rewrite (shift_bins_ok n) by assumption. cbn [bindR].
  rewrite irfft_ok by assumption. reflexivity.
Qed.


(** ** C6: the output spectrum *)


(** Twelve thousand semitones either way and a million samples are well
    inside the range. *)
Lemma pitch_in_range_practical (n : nat) (semitones : R) :
  -12000 <= semitones <= 12000 ->
  INR n <= 1000000 ->
  pitch_in_range n semitones.
Proof.
  intros Hs Hn. split; [lra |].
  set (y := semitones / 12.0). assert (Hy : -1000 <= y <= 1000) by (subst y; lra).
  unfold Rdiv at 1. rewrite <- Rpower_Ropp.
  assert (H1 : Rpower 2 (- y) <= Rpower 2 1000) by (apply Rle_Rpower; lra).
  assert (H2 : INR (n / 2) <= 1000000).
  { eapply Rle_trans; [apply le_INR | exact Hn]. apply Nat.Div0.div_le_upper_bound. lia. }
  assert (H3 : 1000000 < Rpower 2 20).
  { replace 20 with (INR 20) by (simpl; lra). rewrite Rpower_pow by lra. simpl. lra. }
  assert (H4 : Rpower 2 20 * Rpower 2 1000 < float_inf).
  { rewrite <- Rpower_plus. unfold float_inf. apply Rpower_lt; lra. }
  pose proof (pos_INR (n / 2)) as H5. pose proof (Rpower2_pos (- y)) as H6.
  pose proof (Rpower2_pos 1000) as H7.
  eapply Rle_lt_trans; [| exact H4].
  apply Rmult_le_compat; lra.
Qed.


Lemma pitch_shift_fast_empty (semitones : R) :
  0.1 <= Rabs semitones -> -1075 < semitones / 12.0 < 1024 ->
  pitch_shift_fast [] semitones = Raise ValueError.
Proof.
  intros Hs Hr. unfold pitch_shift_fast.
  destruct (Rlt_dec (Rabs semitones) 0.1); [lra |].
  now rewrite pow2_in_range.
Qed.

(** From 1075 octaves down the ratio is [0.0], and the first quotient of the
    loop divides by it. *)
Lemma pitch_shift_fast_underflow (audio : list R) (semitones : R) :
  audio <> [] -> semitones <= -12900 ->
  pitch_shift_fast audio semitones = Raise ZeroDivisionError.
Proof.
  intros Hne Hs. unfold pitch_shift_fast.
  destruct (Rlt_dec (Rabs semitones) 0.1) as [Hlt | _].
  { rewrite Rabs_left in Hlt by lra. lra. }
  unfold pow2. destruct (Rle_dec 1024 (semitones / 12.0)); [lra |].
  destruct (Rle_dec (semitones / 12.0) (-1075)); [| lra]. cbn [bindR].
  rewrite rfft_ok by assumption. cbn [bindR].
  unfold shift_bins. rewrite length_map, length_seq, Nat.add_1_r.
  cbn [seq remap_loop]. unfold truediv.
  destruct (Req_dec_T 0 0); [reflexivity | contradiction].
Qed.


(** ** C8: silence in, silence out *)

Lemma all_zero_nth (a : list R) (m : nat) : all_zero a -> nth m a 0 = 0.
Proof.
  intros H. revert m. induction H as [| x t Hx _ IH]; intros [| m]; cbn; auto.
Qed.

Lemma Rsum_zero (f : nat -> R) (n : nat) : (forall k, f k = 0) -> Rsum f n = 0.
Proof.
  intros H. unfold Rsum. induction (seq 0 n) as [| k l IH]; cbn; [reflexivity |].
  rewrite H, IH. lra.
Qed.

Lemma dft_bin_zero (x : list R) (k : nat) : all_zero x -> dft_bin x k = czero.
Proof.
  intros H. unfold dft_bin, czero. f_equal.
  - apply Rsum_zero. intros m. rewrite all_zero_nth by assumption. lra.
  - rewrite Rsum_zero; [lra |]. intros m. rewrite all_zero_nth by assumption. lra.
Qed.

Lemma cadd_czero : cadd czero czero = czero.
Proof. unfold cadd, czero. cbn. f_equal; lra. Qed.

Lemma csum_zeros (l : list C) : Forall (fun c => c = czero) l -> csum l = czero.
Proof.
  unfold csum. induction 1 as [| c l Hc _ IH]; cbn; [reflexivity |].
  subst c. now rewrite cadd_czero.
Qed.

Lemma idft_sample_zero (a : list C) (n m : nat) :
  (forall k, nth k a czero = czero) -> idft_sample a n m = 0.
Proof.
  intros H. unfold idft_sample. rewrite !H.
  rewrite Rsum_zero.
  - destruct (Nat.even n); cbn [fst czero]; unfold Rdiv; ring.
  - intros j. rewrite H. cbn [fst snd czero]. ring.
Qed.

Lemma max_abs_zero (t : list R) : all_zero t -> fold_left Rmax (map Rabs t) 0 = 0.
Proof.
  induction 1 as [| x t Hx _ IH]; cbn; [reflexivity |].
  subst x. rewrite Rabs_R0. unfold Rmax at 2.
  destruct (Rle_dec 0 0); exact IH.
Qed.

Lemma np_max_abs_zero (a : list R) : a <> [] -> all_zero a -> np_max_abs a = Ok 0.
Proof.
  intros Hne H. destruct a as [| x t]; [contradiction |].
  inversion H as [| ? ? Hx Ht]; subst. cbn [np_max_abs].
  rewrite Rabs_R0. now rewrite max_abs_zero.
Qed.

(** The guard of line 54: a zero peak leaves the block as it is, nothing is
    divided. *)
Lemma normalize_zero_peak (audio shifted : list R) :
  shifted <> [] -> all_zero shifted -> normalize audio shifted = Ok shifted.
Proof.
  intros Hne Hz. unfold normalize. rewrite np_max_abs_zero by assumption. cbn [bindR].
  destruct (Rlt_dec 0 0); [lra | reflexivity].
Qed.

(** C8, as the code has it: on an all-zero block, with the pitch under the
    bypass threshold, or with a block that is not empty and a pitch that
    keeps the ratio and the bin quotients in the double range, the shifter
    returns an all-zero block of the same length; the normalization of a
    zero-peak block returns it without dividing. *)
Theorem pitch_shift_fast_zero_block (audio : list R) (semitones : R) :
  all_zero audio ->
  Rabs semitones < 0.1 \/ (audio <> [] /\ pitch_in_range (length audio) semitones) ->
  (exists out,
     pitch_shift_fast audio semitones = Ok out /\
     length out = length audio /\
     all_zero out) /\
  (forall shifted, shifted <> [] -> all_zero shifted -> normalize audio shifted = Ok shifted).
Proof.
  intros Hz Hs. split; [| intros shifted; apply normalize_zero_peak].
  destruct (Rlt_dec (Rabs semitones) 0.1) as [Hlt | Hge].
  { exists audio. rewrite pitch_shift_fast_under_threshold by assumption. auto. }
  destruct Hs as [Hlt | [Hne Hr]]; [contradiction |].
  destruct (pitch_shift_fast_steps audio semitones Hne) as
    (spectrum & new_spectrum & shifted & H1 & H2 & H3 & H4 & H5 & H6 & H7 & H8 & H9);
    [lra | assumption |].
  assert (Hspec : forall i, nth i spectrum czero = czero).
  { rewrite rfft_ok in H1 by assumption. injection H1 as <-. intros i.
    destruct (Nat.lt_ge_cases i (length audio / 2 + 1)) as [Hi | Hi].
    - rewrite nth_indep with (d' := dft_bin audio 0) by now rewrite length_map, length_seq.
      rewrite map_nth. now apply dft_bin_zero.
    - apply nth_overflow. now rewrite length_map, length_seq. }
  assert (Hnew : forall k, nth k new_spectrum czero = czero).
  { intros k. destruct (Nat.lt_ge_cases k (length audio / 2 + 1)) as [Hk | Hk].
    - rewrite H5 by assumption. apply csum_zeros.
      apply Forall_map, Forall_forall. intros i _. apply Hspec.
    - apply nth_overflow. now rewrite H4. }
  assert (Hshift : all_zero shifted).
  { rewrite H8. apply Forall_map, Forall_forall. intros m _. now apply idft_sample_zero. }
  assert (Hsne : shifted <> []).
  { intros E. rewrite E in H7. destruct audio; [contradiction | discriminate H7]. }
  exists shifted. rewrite H9, normalize_zero_peak by assumption. auto.
Qed.

Lemma pitch_shift_fast_zero_block_witness :
  (exists out,
     pitch_shift_fast [0; 0; 0; 0] 3 = Ok out /\
     length out = length [0; 0; 0; 0] /\
     all_zero out) /\
  (forall shifted, shifted <> [] -> all_zero shifted ->
     normalize [0; 0; 0; 0] shifted = Ok shifted).
Proof.
  apply (pitch_shift_fast_zero_block [0; 0; 0; 0] 3).
  - repeat constructor.
  - right. split; [discriminate |].
    apply pitch_in_range_practical; [lra | simpl; lra].
Defined.

(** C8 as the specification states it fails outside the double range, and
    on a block of no samples: on 256 zeros at 12288 semitones the shifter
    raises instead of returning zeros, and so it does on the empty block at
    3 semitones. *)
Lemma zero_block_raises_at_1024_octaves :
  (all_zero (repeat 0 256) /\
   pitch_shift_fast (repeat 0 256) 12288 = Raise OverflowError /\
   ~ (exists out, pitch_shift_fast (repeat 0 256) 12288 = Ok out)) /\
  (all_zero [] /\ pitch_shift_fast [] 3 = Raise ValueError).
Proof.
  assert (E : pitch_shift_fast (repeat 0 256) 12288 = Raise OverflowError)
    by (apply pitch_shift_fast_overflow; lra).
  split; split.
  - apply Forall_forall. intros v Hv. now apply repeat_spec in Hv.
  - split; [exact E |]. intros [out H]. rewrite E in H. discriminate H.
  - constructor.
  - apply pitch_shift_fast_empty; [rewrite Rabs_right; lra | lra].
Qed.

(** ** The body of the [try] in normal operation *)

Lemma np_max_abs_ok (a : list R) : a <> [] -> exists m, np_max_abs a = Ok m.
Proof. intros H. destruct a; [contradiction | cbn; eauto]. Qed.

Lemma normalize_ok (audio shifted : list R) :
  audio <> [] -> shifted <> [] ->
  exists out, normalize audio shifted = Ok out /\ length out = length shifted.
Proof.
  intros Ha Hs. unfold normalize.
  destruct (np_max_abs_ok shifted Hs) as [max_val ->]. cbn [bindR].
  destruct (Rlt_dec 0 max_val); [| eauto].
  destruct (np_max_abs_ok audio Ha) as [peak ->]. cbn [bindR].
  eexists. split; [reflexivity | apply length_map].
Qed.

(** Inside the range the shifter returns a block of the length of its
    input. *)
Lemma pitch_shift_fast_returns (audio : list R) (semitones : R) :
  audio <> [] ->
  pitch_in_range (length audio) semitones ->
  exists out, pitch_shift_fast audio semitones = Ok out /\ length out = length audio.
Proof.
  intros Hne Hr. destruct (Rlt_dec (Rabs semitones) 0.1) as [Hlt | Hge].
  { exists audio. now rewrite pitch_shift_fast_under_threshold. }
  destruct (pitch_shift_fast_steps audio semitones Hne) as
    (spectrum & new_spectrum & shifted & _ & _ & _ & _ & _ & _ & H7 & _ & H9);
    [lra | assumption |].
  destruct (normalize_ok audio shifted Hne) as (out & Hout & Hlen).
  - intros E. rewrite E in H7. destruct audio; [contradiction | discriminate H7].
  - exists out. rewrite H9, Hout. split; [reflexivity | congruence].
Qed.

Lemma fix_length_length (rows : nat) (shifted : list R) :
  length (fix_length rows shifted) = rows.
Proof.
  unfold fix_length, slice_to, np_zeros.
  destruct (Nat.ltb_spec rows (length shifted)).
  - rewrite length_firstn. lia.
  - destruct (Nat.ltb_spec (length shifted) rows).
    + rewrite length_app, repeat_length. lia.
    + lia.
Qed.

Lemma np_clip_length (lo hi : R) (a : list R) : length (np_clip lo hi a) = length a.
Proof. apply length_map. Qed.

(** A block of at least one frame, a pitch inside the range (or under the
    threshold of line 107), a read of the carrier that ends within one wrap
    (or the effect off): the body completes. *)
Lemma process_completes (rows : nat) (mono : list R) (g : Globals) :
  length mono = rows ->
  Rabs (current_pitch g) <= 0.1 \/ (rows <> 0%nat /\ pitch_in_range rows (current_pitch g)) ->
  robotic_enabled g = false \/
    ((carrier_idx g < carrier_table_size)%nat /\
     (carrier_idx g + rows <= 2 * carrier_table_size)%nat) ->
  exists out g1, process rows mono g = (Ok out, g1).
Proof.
  intros Hlen Hpitch Hrobot. unfold process, bind, read, lift, ret.
  assert (Hshift : exists shifted,
             (if Rlt_dec 0.1 (Rabs (current_pitch g))
              then fun g0 => match pitch_shift_fast mono (current_pitch g) with
                             | Ok a => (Ok (fix_length rows a), g0)
                             | Raise e => (Raise e, g0)
                             end
              else fun g0 => (Ok mono, g0)) g = (Ok shifted, g) /\ length shifted = rows).
  { destruct (Rlt_dec 0.1 (Rabs (current_pitch g))) as [Hgt | Hle].
    - destruct Hpitch as [Hle | [Hrows Hr]]; [lra |].
      destruct (pitch_shift_fast_returns mono (current_pitch g)) as (s & -> & _).
      + intros E. rewrite E in Hlen. cbn in Hlen. congruence.
      + now rewrite Hlen.
      + eexists. split; [reflexivity | apply fix_length_length].
    - eauto. }
  destruct Hshift as (shifted & Hs & Hsl).
  match goal with
  | |- context [match ?X g with _ => _ end] =>
      replace (X g) with (@Ok (list R) shifted, g) by (symmetry; exact Hs)
  end.
  destruct (robotic_enabled g) eqn:Er.
  - destruct Hrobot as [Hoff | [Hc Hn]]; [discriminate Hoff |].
    destruct (apply_robotic_effect_bounded shifted 0.7 g Hc) as (out & -> & Hol & _);
      [now rewrite Hsl |].
    rewrite write_stereo_same_length; [eauto |].
    rewrite np_clip_length, np_scale_length. congruence.
  - rewrite write_stereo_same_length; [eauto |].
    now rewrite np_clip_length, np_scale_length.
Qed.

(** ** C1: the range of the callback output *)

(** C1, as the code has it: on a block whose samples are numbers of
    [[-1, 1]], when the gate mutes the block, and when the body of the [try]
    completes, both channels hold [frames] samples, each within
    [[-0.95, 0.95]].  (When the body raises, the channels hold the input
    times 1.5 and are not clipped.) *)
Theorem callback_output_clipped (indata : InData) (g : Globals) :
  samples_in_unit_range indata ->
  muted g = true \/
    (exists out g1, process (frames indata) (mono_of indata) g = (Ok out, g1)) ->
  exists ch0 ch1 g',
    audio_callback indata g = (Ok (ch0, ch1), g') /\
    (length ch0 = frames indata /\ Forall in_clip_range ch0) /\
    (length ch1 = frames indata /\ Forall in_clip_range ch1).
Proof.
  intros _ H. destruct (muted g) eqn:Hm.
  - exists (np_zeros (frames indata)), (np_zeros (frames indata)), g.
    rewrite audio_callback_eq, Hm.
    rewrite write_stereo_same_length by apply np_zeros_length.
    assert (Hz : Forall in_clip_range (np_zeros (frames indata))).
    { apply Forall_forall. intros v Hv. apply repeat_spec in Hv. subst v.
      unfold in_clip_range. lra. }
    rewrite np_zeros_length. auto.
  - destruct H as [H | ([ch0 ch1] & g1 & Hok)]; [discriminate H |].
    exists ch0, ch1, g1. split; [now apply callback_on_completion |].
    now apply (process_ok_in_range _ _ _ _ _ _ Hok).
Qed.

Lemma callback_output_clipped_witness :
  exists ch0 ch1 g',
    audio_callback (mkInData 256 0 (fun _ _ => 1)) initial_globals = (Ok (ch0, ch1), g') /\
    (length ch0 = 256%nat /\ Forall in_clip_range ch0) /\
    (length ch1 = 256%nat /\ Forall in_clip_range ch1).
Proof.
  apply (callback_output_clipped (mkInData 256 0 (fun _ _ => 1)) initial_globals).
  { intros r c. cbn [sample]. lra. }
  right. apply process_completes.
  - apply mono_of_length.
  - right. split; [discriminate |].
    apply pitch_in_range_practical.
    + cbn [current_pitch initial_globals]. unfold PITCH_SHIFT. lra.
    + cbn [frames]. rewrite INR_IZR_INZ. simpl Z.of_nat. lra.
  - right. cbn [carrier_idx initial_globals frames]. rewrite carrier_table_size_eq. lia.
Defined.

(** C1 as the specification states it fails on the exception path: with the
    pitch at 12288 semitones the shifter raises on a full-scale block of
    256 frames, a block of the sample domain, and both channels receive
    1.5. *)
Lemma passthrough_exceeds_clip_range :
  samples_in_unit_range (mkInData 256 0 (fun _ _ => 1)) /\
  exists ch0 ch1 g',
    audio_callback (mkInData 256 0 (fun _ _ => 1)) (mkGlobals 12288 true false false 0)
    = (Ok (ch0, ch1), g') /\
    nth 0 ch0 0 = 1.5 /\ nth 0 ch1 0 = 1.5 /\
    ~ in_clip_range (nth 0 ch0 0) /\ ~ in_clip_range (nth 0 ch1 0).
Proof.
  split; [intros r c; cbn [sample]; lra |].
  set (indata := mkInData 256 0 (fun _ _ => 1)).
  set (g := mkGlobals 12288 true false false 0).
  exists (np_scale (mono_of indata) 1.5), (np_scale (mono_of indata) 1.5), g.
  assert (E : nth 0 (np_scale (mono_of indata) 1.5) 0 = 1.5).
  { rewrite mono_of_first by discriminate. cbn [sample indata]. lra. }
  split.
  - apply (callback_on_exception indata g g OverflowError).
    + reflexivity.
    + apply process_pitch_overflow. cbn [current_pitch g]. lra.
  - rewrite E. unfold in_clip_range. repeat split; lra.
Qed.

(** The same on the other exception of the model: a block of
    [2 * 4800 + 1] frames, the pitch shifter bypassed, the effect on.  The
    carrier read is one sample short, line 79 raises, both channels receive
    1.5, and the cursor has moved on by the block length. *)
Lemma passthrough_on_oversized_block :
  exists ch0 ch1 g',
    audio_callback (mkInData (2 * 4800 + 1) 0 (fun _ _ => 1)) (mkGlobals 0 true false false 0)
    = (Ok (ch0, ch1), g') /\
    nth 0 ch0 0 = 1.5 /\ nth 0 ch1 0 = 1.5 /\
    carrier_idx g' = 1%nat.
Proof.
  set (indata := mkInData (2 * 4800 + 1) 0 (fun _ _ => 1)).
  set (g := mkGlobals 0 true false false 0).
  assert (E : nth 0 (np_scale (mono_of indata) 1.5) 0 = 1.5).
  { rewrite mono_of_first by (cbn [frames indata]; lia). cbn [sample indata]. lra. }
  assert (Hp : process (frames indata) (mono_of indata) g
               = (Raise ValueError,
                  set_carrier_idx ((0 + (2 * 4800 + 1)) mod carrier_table_size) g)).
  { rewrite process_block_too_long.
    - now rewrite mono_of_length.
    - cbn [current_pitch g]. rewrite Rabs_R0. lra.
    - reflexivity.
    - apply carrier_table_size_pos.
    - rewrite mono_of_length, carrier_table_size_eq. cbn [carrier_idx g frames indata]. lia. }
  eexists _, _, _. split; [exact (callback_on_exception indata g _ ValueError eq_refl Hp) |].
  rewrite E, carrier_idx_set, carrier_table_size_eq.
  split; [reflexivity |]. split; [reflexivity |].
  replace (0 + (2 * 4800 + 1))%nat with (1 + 2 * 4800)%nat by lia.
  rewrite Nat.Div0.mod_add. apply Nat.mod_small. lia.
Qed.

(** With the pitch under the threshold and the effect off the callback is
    the gain and the clip alone. *)
Lemma callback_gain_and_clip (indata : InData) (g : Globals) :
  muted g = false ->
  Rabs (current_pitch g) <= 0.1 ->
  robotic_enabled g = false ->
  audio_callback indata g
  = (Ok (np_clip (-0.95) 0.95 (np_scale (mono_of indata) 2.2),
         np_clip (-0.95) 0.95 (np_scale (mono_of indata) 2.2)), g).
Proof.
  intros Hm Hp Hr. apply callback_on_completion; [assumption |].
  unfold process, bind, read, ret.
  destruct (Rlt_dec 0.1 (Rabs (current_pitch g))); [lra |].
  rewrite Hr. apply write_stereo_same_length.
  rewrite np_clip_length, np_scale_length. apply mono_of_length.
Qed.

(** ** The callback writes no parameter *)

(** The audio thread reads the four parameters and writes the cursor only:
    the invariant of the key loop cannot be broken from the callback. *)
Lemma process_keeps_parameters (rows : nat) (mono : list R) (g : Globals) :
  exists idx, snd (process rows mono g) = set_carrier_idx idx g.
Proof.
  assert (Hsame : g = set_carrier_idx (carrier_idx g) g) by now destruct g.
  unfold process, bind, read, lift, ret.
  destruct (Rlt_dec 0.1 (Rabs (current_pitch g))).
  - destruct (pitch_shift_fast mono (current_pitch g)) as [s | e];
      [| exists (carrier_idx g); exact Hsame].
    destruct (robotic_enabled g).
    + pose proof (apply_robotic_effect_cursor (fix_length rows s) 0.7 g) as Hc.
      rewrite read_carrier_eq in Hc. cbn [snd] in Hc.
      destruct (apply_robotic_effect (fix_length rows s) 0.7 g) as [[out | e] g1];
        cbn [snd] in Hc; subst g1; [| eexists; reflexivity].
      unfold write_stereo, bind, lift, ret.
      destruct (assign rows _); eexists; reflexivity.
    + unfold write_stereo, bind, lift, ret.
      destruct (assign rows _); exists (carrier_idx g); exact Hsame.
  - destruct (robotic_enabled g).
    + pose proof (apply_robotic_effect_cursor mono 0.7 g) as Hc.
      rewrite read_carrier_eq in Hc. cbn [snd] in Hc.
      destruct (apply_robotic_effect mono 0.7 g) as [[out | e] g1];
        cbn [snd] in Hc; subst g1; [| eexists; reflexivity].
      unfold write_stereo, bind, lift, ret.
      destruct (assign rows _); eexists; reflexivity.
    + unfold write_stereo, bind, lift, ret.
      destruct (assign rows _); exists (carrier_idx g); exact Hsame.
Qed.

Lemma audio_callback_keeps_flags (indata : InData) (g : Globals) :
  same_flags g (snd (audio_callback indata g)) /\
  (talking_implies_ptt g -> talking_implies_ptt (snd (audio_callback indata g))).
Proof.
  assert (H : exists idx, snd (audio_callback indata g) = set_carrier_idx idx g).
  { rewrite audio_callback_eq. destruct (muted g).
    - rewrite write_stereo_same_length by apply np_zeros_length.
      exists (carrier_idx g). now destruct g.
    - unfold try_except.
      destruct (process_keeps_parameters (frames indata) (mono_of indata) g) as [idx Hp].
      destruct (process _ _ g) as [[out | e] g1]; cbn [snd] in Hp; subst g1.
      + now exists idx.
      + rewrite passthrough_eq. now exists idx. }
  destruct H as [idx ->]. split; [split; reflexivity | exact (fun H => H)].
Qed.

(** ** The callback as a whole *)

Lemma write_stereo_inv (rows : nat) (v : list R) (g : Globals) :
  write_stereo rows v g = (Raise ValueError, g) \/
  exists w, write_stereo rows v g = (Ok (w, w), g) /\ length w = rows /\
            (w = v \/ w = repeat (nth 0 v 0) rows).
Proof.
  unfold write_stereo, bind, lift, ret, assign.
  destruct (Nat.eqb_spec (length v) rows) as [E | _]; [right; eauto |].
  destruct (length v =? 1)%nat; [| now left].
  right. eexists. split; [reflexivity |]. split; [apply repeat_length | now right].
Qed.

Lemma write_stereo_state (rows : nat) (v : list R) (g : Globals) :
  snd (write_stereo rows v g) = g.
Proof.
  destruct (write_stereo_inv rows v g) as [-> | (w & -> & _)]; reflexivity.
Qed.

Lemma process_ok_inv (rows : nat) (mono : list R) (g g1 : Globals) (out : OutData) :
  process rows mono g = (Ok out, g1) ->
  exists w, out = (w, w) /\ length w = rows /\ Forall in_clip_range w.
Proof.
  intros H. destruct out as [ch0 ch1].
  destruct (process_ok_in_range _ _ _ _ _ _ H) as [[Hl Hr] _].
  unfold process in H.
  apply bind_ok_inv in H. destruct H as (pitch & ga & _ & H).
  apply bind_ok_inv in H. destruct H as (shifted & gb & _ & H).
  apply bind_ok_inv in H. destruct H as (robotic & gc & _ & H).
  apply bind_ok_inv in H. destruct H as (shifted' & gd & _ & H).
  destruct (write_stereo_inv rows (np_clip (-0.95) 0.95 (np_scale shifted' 2.2)) gd)
    as [E | (w & E & _)]; rewrite E in H; [discriminate H |].
  injection H as <- <- <-. exists w. auto.
Qed.

(** Where the body of the [try] leaves the cursor. *)
Lemma process_cursor (rows : nat) (mono : list R) (g : Globals) :
  snd (process rows mono g) =
  if robotic_enabled g then
    if Rlt_dec 0.1 (Rabs (current_pitch g)) then
      match pitch_shift_fast mono (current_pitch g) with
      | Ok _ => advance rows g
      | Raise _ => g
      end
    else advance (length mono) g
  else
    g.
Proof.
  unfold process, bind, read, lift, ret, advance.
  destruct (Rlt_dec 0.1 (Rabs (current_pitch g))).
  - destruct (pitch_shift_fast mono (current_pitch g)) as [s | e];
      [| now destruct (robotic_enabled g)].
    destruct (robotic_enabled g).
    + pose proof (apply_robotic_effect_cursor (fix_length rows s) 0.7 g) as Hc.
      rewrite read_carrier_eq, fix_length_length in Hc. cbn [snd] in Hc.
      destruct (apply_robotic_effect (fix_length rows s) 0.7 g) as [[out | e] g1];
        cbn [snd] in Hc; subst g1; [| reflexivity].
      apply write_stereo_state.
    + apply write_stereo_state.
  - destruct (robotic_enabled g).
    + pose proof (apply_robotic_effect_cursor mono 0.7 g) as Hc.
      rewrite read_carrier_eq in Hc. cbn [snd] in Hc.
      destruct (apply_robotic_effect mono 0.7 g) as [[out | e] g1];
        cbn [snd] in Hc; subst g1; [| reflexivity].
      apply write_stereo_state.
    + apply write_stereo_state.
Qed.

Lemma callback_state (indata : InData) (g : Globals) :
  snd (audio_callback indata g)
  = if muted g then g else snd (process (frames indata) (mono_of indata) g).
Proof.
  rewrite audio_callback_eq. destruct (muted g).
  - apply write_stereo_state.
  - unfold try_except.
    destruct (process (frames indata) (mono_of indata) g) as [[out | e] g1]; [reflexivity |].
    now rewrite passthrough_eq.
Qed.

Lemma advance_in_table (n : nat) (g : Globals) :
  (carrier_idx (advance n g) < carrier_table_size)%nat.
Proof.
  unfold advance. rewrite carrier_idx_set.
  apply Nat.mod_upper_bound. pose proof carrier_table_size_pos. lia.
Qed.

(** X1.  Both channels always carry the same [frames] samples: the gate, the
    pipeline and the fallback each write one block twice. *)
Theorem callback_channels_equal (indata : InData) (g : Globals) :
  exists w g',
    audio_callback indata g = (Ok (w, w), g') /\ length w = frames indata.
Proof.
  rewrite audio_callback_eq. destruct (muted g).
  - rewrite write_stereo_same_length by apply np_zeros_length.
    exists (np_zeros (frames indata)), g. split; [reflexivity | apply np_zeros_length].
  - unfold try_except.
    destruct (process (frames indata) (mono_of indata) g) as [[out | e] g1] eqn:Hp.
    + destruct (process_ok_inv _ _ _ _ _ Hp) as (w & -> & Hl & _). eauto.
    + rewrite passthrough_eq. eexists _, _. split; [reflexivity |].
      rewrite np_scale_length. apply mono_of_length.
Qed.

(** X3.  The cursor after one callback: it stays where it is when the block is
    muted, when the effect is off, and when the pitch shifter raises; in
    every other case it has moved on by the block length modulo the table
    size, also when the effect itself then raises; and it never leaves the
    table. *)
Theorem callback_cursor_law (indata : InData) (g : Globals) :
  (muted g = true \/ robotic_enabled g = false \/
   (0.1 < Rabs (current_pitch g) /\
    raises (pitch_shift_fast (mono_of indata) (current_pitch g))) ->
   snd (audio_callback indata g) = g) /\
  (muted g = false -> robotic_enabled g = true ->
   (Rabs (current_pitch g) <= 0.1 \/
    exists s, pitch_shift_fast (mono_of indata) (current_pitch g) = Ok s) ->
   snd (audio_callback indata g) = advance (frames indata) g) /\
  ((carrier_idx g < carrier_table_size)%nat ->
   (carrier_idx (snd (audio_callback indata g)) < carrier_table_size)%nat).
Proof.
  rewrite callback_state, process_cursor, mono_of_length.
  split; [| split].
  - intros [-> | [Hr | [Hp [e He]]]]; [reflexivity | |].
    + rewrite Hr. now destruct (muted g).
    + rewrite He. destruct (muted g), (robotic_enabled g); try reflexivity.
      destruct (Rlt_dec 0.1 (Rabs (current_pitch g))); [reflexivity | lra].
  - intros -> -> [Hp | [s Hs]].
    + destruct (Rlt_dec 0.1 (Rabs (current_pitch g))); [lra | reflexivity].
    + rewrite Hs. now destruct (Rlt_dec 0.1 (Rabs (current_pitch g))).
  - intros Hc. destruct (muted g); [assumption |].
    destruct (robotic_enabled g); [| assumption].
    destruct (Rlt_dec 0.1 (Rabs (current_pitch g))); [| apply advance_in_table].
    destruct (pitch_shift_fast _ _); [apply advance_in_table | assumption].
Qed.

Lemma callback_cursor_law_witness :
  snd (audio_callback (mkInData 256 0 (fun _ _ => 1)) (mkGlobals 0 true false false 4700))
  = advance 256 (mkGlobals 0 true false false 4700) /\
  carrier_idx (advance 256 (mkGlobals 0 true false false 4700)) = 156%nat.
Proof.
  split.
  - apply (proj1 (proj2 (callback_cursor_law (mkInData 256 0 (fun _ _ => 1))
                                              (mkGlobals 0 true false false 4700))));
      [reflexivity | reflexivity |].
    left. cbn [current_pitch]. rewrite Rabs_R0. lra.
  - unfold advance. rewrite carrier_idx_set, carrier_table_size_eq. reflexivity.
Defined.

(** ** A stream of blocks *)

Lemma advance_parameters (n : nat) (g : Globals) :
  current_pitch (advance n g) = current_pitch g /\
  robotic_enabled (advance n g) = robotic_enabled g /\
  muted (advance n g) = muted g.
Proof. now destruct g. Qed.

(** X4.  With the gate open and the effect on, over blocks on which the pitch
    shifter does not raise, the cursor after the stream is the start cursor
    plus the total number of frames, modulo the table size: the carrier does
    not depend on how the stream is cut into blocks. *)
Theorem stream_cursor (blocks : list InData) (g : Globals) :
  muted g = false ->
  robotic_enabled g = true ->
  (carrier_idx g < carrier_table_size)%nat ->
  Rabs (current_pitch g) <= 0.1 \/
    Forall (fun indata => frames indata <> 0%nat /\
                          pitch_in_range (frames indata) (current_pitch g)) blocks ->
  carrier_idx (run_callbacks blocks g)
  = ((carrier_idx g + total_frames blocks) mod carrier_table_size)%nat.
Proof.
  unfold run_callbacks, total_frames. revert g.
  induction blocks as [| indata blocks IH]; intros g Hm Hr Hc Hp; cbn [fold_left map].
  - change (list_sum []) with 0%nat. rewrite Nat.add_0_r. symmetry. now apply Nat.mod_small.
  - change (list_sum (frames indata :: map frames blocks))
      with (frames indata + list_sum (map frames blocks))%nat.
    assert (Hstep : snd (audio_callback indata g) = advance (frames indata) g).
    { rewrite callback_state, process_cursor, mono_of_length, Hm, Hr.
      destruct (Rlt_dec 0.1 (Rabs (current_pitch g))) as [Hgt | _]; [| reflexivity].
      destruct Hp as [Hle | Hall]; [lra |].
      inversion Hall as [| ? ? [Hf Hin] _]; subst.
      destruct (pitch_shift_fast_returns (mono_of indata) (current_pitch g)) as (s & -> & _).
      - intros E. pose proof (mono_of_length indata) as Hl. rewrite E in Hl. cbn in Hl. congruence.
      - now rewrite mono_of_length.
      - reflexivity. }
    rewrite Hstep.
    destruct (advance_parameters (frames indata) g) as (Ep & Er & Em).
    rewrite IH.
    + unfold advance. rewrite carrier_idx_set, Nat.Div0.add_mod_idemp_l. f_equal. lia.
    + now rewrite Em.
    + now rewrite Er.
    + apply advance_in_table.
    + rewrite Ep. destruct Hp as [Hle | Hall]; [now left | right].
      now inversion Hall.
Qed.

Lemma stream_cursor_witness :
  carrier_idx (run_callbacks [mkInData 256 0 (fun _ _ => 1%R); mkInData 512 0 (fun _ _ => 0%R)]
                             (mkGlobals 0 true false false 4700))
  = ((4700 + total_frames [mkInData 256 0 (fun _ _ => 1%R); mkInData 512 0 (fun _ _ => 0%R)])
       mod carrier_table_size)%nat.
Proof.
  apply (stream_cursor [mkInData 256 0 (fun _ _ => 1%R); mkInData 512 0 (fun _ _ => 0%R)]
                       (mkGlobals 0 true false false 4700)).
  - reflexivity.
  - reflexivity.
  - cbn [carrier_idx]. rewrite carrier_table_size_eq. lia.
  - left. cbn [current_pitch]. rewrite Rabs_R0. lra.
Defined.

(** ** Who writes what *)

Lemma callback_writes_cursor_only (indata : InData) (g : Globals) :
  exists idx, snd (audio_callback indata g) = set_carrier_idx idx g.
Proof.
  assert (Hsame : g = set_carrier_idx (carrier_idx g) g) by now destruct g.
  rewrite callback_state, process_cursor.
  destruct (muted g); [now exists (carrier_idx g) |].
  destruct (robotic_enabled g); [| now exists (carrier_idx g)].
  destruct (Rlt_dec 0.1 (Rabs (current_pitch g))); [| eexists; reflexivity].
  destruct (pitch_shift_fast _ _); [eexists; reflexivity | now exists (carrier_idx g)].
Qed.

Lemma handle_key_keeps_cursor (key : ascii) (next1 next2 : option ascii) (g g' : Globals) :
  handle_key key next1 next2 g = Some g' -> carrier_idx g' = carrier_idx g.
Proof.
  unfold handle_key. intros H.
  repeat match type of H with
         | (if ?c then _ else _) = _ => destruct c
         | match ?o with Some _ => _ | None => _ end = _ => destruct o
         | Some _ = Some _ => injection H as <-
         | None = Some _ => discriminate H
         end; try reflexivity.
  all: destruct g as [p r ptt t c]; cbn; now destruct ptt.
Qed.

Lemma main_loop_preserves (P : Globals -> Prop) :
  (forall key next1 next2 g g', P g -> handle_key key next1 next2 g = Some g' -> P g') ->
  forall polls g, P g -> P (main_loop polls g).
Proof.
  intros Hstep polls.
  assert (H : forall n polls g, (length polls <= n)%nat -> P g -> P (main_loop polls g)).
  { induction n as [| n IH]; intros ps g Hlen Hg.
    - destruct ps; [assumption | cbn in Hlen; lia].
    - destruct ps as [| [key |] rest]; cbn [main_loop]; auto; cbn [length] in Hlen.
      + destruct (is_key key ESC).
        * destruct rest as [| next1 [| next2 rest2]]; auto. cbn [length] in Hlen.
          destruct (handle_key key next1 next2 g) as [g' |] eqn:Hk; auto.
          apply IH; [lia | eapply Hstep; eauto].
        * destruct (handle_key key None None g) as [g' |] eqn:Hk; auto.
          apply IH; [lia | eapply Hstep; eauto].
      + apply IH; [lia | assumption]. }
  intros g. apply (H (length polls)). lia.
Qed.

(** X5.  The two threads write disjoint cells: the callback changes nothing but
    the carrier cursor, the key loop changes anything but it. *)
Theorem single_writer (indata : InData) (polls : list (option ascii)) (g : Globals) :
  (exists idx, snd (audio_callback indata g) = set_carrier_idx idx g) /\
  carrier_idx (main_loop polls g) = carrier_idx g.
Proof.
  split; [apply callback_writes_cursor_only |].
  apply (main_loop_preserves (fun g' => carrier_idx g' = carrier_idx g)); [| reflexivity].
  intros key next1 next2 g1 g2 H1 H2.
  rewrite <- H1. now apply (handle_key_keeps_cursor key next1 next2).
Qed.

(** ** The programs without push-to-talk *)

Lemma flag_blind_ret {A : Type} (a : A) : flag_blind (ret a).
Proof. intros ptt talking g. reflexivity. Qed.

Lemma flag_blind_lift {A : Type} (r : result A) : flag_blind (lift r).
Proof. intros ptt talking g. reflexivity. Qed.

Lemma flag_blind_bind {A B : Type} (m : M A) (k : A -> M B) :
  flag_blind m -> (forall a, flag_blind (k a)) -> flag_blind (bind m k).
Proof.
  intros Hm Hk ptt talking g. unfold bind. rewrite Hm.
  destruct (m g) as [[a | e] g1]; cbn [fst snd]; [apply Hk | reflexivity].
Qed.

Lemma flag_blind_try {A : Type} (body : M A) (handler : exn -> M A) :
  flag_blind body -> (forall e, flag_blind (handler e)) -> flag_blind (try_except body handler).
Proof.
  intros Hb Hh ptt talking g. unfold try_except. rewrite Hb.
  destruct (body g) as [[a | e] g1]; cbn [fst snd]; [reflexivity | apply Hh].
Qed.

Lemma flag_blind_read_pitch : flag_blind (read current_pitch).
Proof. intros ptt talking g. now destruct g. Qed.

Lemma flag_blind_read_robotic : flag_blind (read robotic_enabled).
Proof. intros ptt talking g. now destruct g. Qed.

Lemma flag_blind_read_cursor : flag_blind (read carrier_idx).
Proof. intros ptt talking g. now destruct g. Qed.

Lemma flag_blind_write_cursor (v : nat) : flag_blind (write (set_carrier_idx v)).
Proof. intros ptt talking g. now destruct g. Qed.

Lemma flag_blind_write_stereo (rows : nat) (v : list R) : flag_blind (write_stereo rows v).
Proof.
  unfold write_stereo.
  apply flag_blind_bind; [apply flag_blind_lift | intros ch0].
  apply flag_blind_bind; [apply flag_blind_lift | intros ch1].
  apply flag_blind_ret.
Qed.

Lemma flag_blind_robotic (audio : list R) (intensity : R) :
  flag_blind (apply_robotic_effect audio intensity).
Proof.
  unfold apply_robotic_effect, read_carrier.
  apply flag_blind_bind; [| intros carrier; apply flag_blind_lift].
  apply flag_blind_bind; [apply flag_blind_read_cursor | intros start_idx].
  apply flag_blind_bind; [apply flag_blind_write_cursor | intros _].
  apply flag_blind_ret.
Qed.

Lemma flag_blind_process (rows : nat) (mono : list R) : flag_blind (process rows mono).
Proof.
  unfold process.
  apply flag_blind_bind; [apply flag_blind_read_pitch | intros pitch].
  apply flag_blind_bind.
  { destruct (Rlt_dec 0.1 (Rabs pitch)); [| apply flag_blind_ret].
    apply flag_blind_bind; [apply flag_blind_lift | intros s; apply flag_blind_ret]. }
  intros shifted.
  apply flag_blind_bind; [apply flag_blind_read_robotic | intros robotic].
  apply flag_blind_bind.
  { destruct robotic; [apply flag_blind_robotic | apply flag_blind_ret]. }
  intros shifted'. apply flag_blind_write_stereo.
Qed.

(** X6.  With the gate open the push-to-talk program runs exactly the callback
    of the two other programs, and that callback does not depend on the two
    flags nor touch them. *)
Theorem ptt_off_is_plain_callback (indata : InData) (g : Globals) :
  (muted g = false -> audio_callback indata g = audio_callback_no_ptt indata g) /\
  flag_blind (audio_callback_no_ptt indata).
Proof.
  split.
  - intros Hm. rewrite audio_callback_eq, Hm. reflexivity.
  - unfold audio_callback_no_ptt.
    apply flag_blind_try; [apply flag_blind_process |].
    intros e. apply flag_blind_write_stereo.
Qed.

Lemma ptt_off_is_plain_callback_witness :
  audio_callback (mkInData 2 0 (fun _ _ => 1)) (mkGlobals 0 false true true 0)
  = audio_callback_no_ptt (mkInData 2 0 (fun _ _ => 1)) (mkGlobals 0 false true true 0).
Proof.
  apply (proj1 (ptt_off_is_plain_callback (mkInData 2 0 (fun _ _ => 1))
                                          (mkGlobals 0 false true true 0))).
  reflexivity.
Defined.

Lemma handle_key_no_ptt_same (key : ascii) (next1 next2 : option ascii) (g : Globals) :
  ~ ptt_key key -> handle_key_no_ptt key next1 next2 g = handle_key key next1 next2 g.
Proof.
  unfold ptt_key. intros H. unfold handle_key_no_ptt, handle_key.
  assert (Ep : is_key key "p" = false) by (apply Ascii.eqb_neq; tauto).
  assert (EP : is_key key "P" = false) by (apply Ascii.eqb_neq; tauto).
  assert (Es : is_key key " " = false) by (apply Ascii.eqb_neq; tauto).
  now rewrite Ep, EP, Es.
Qed.

Lemma handle_key_no_ptt_ignores (key : ascii) (next1 next2 : option ascii) (g : Globals) :
  ptt_key key -> handle_key_no_ptt key next1 next2 g = Some g.
Proof. intros [-> | [-> | ->]]; reflexivity. Qed.

Lemma main_loop_no_ptt_same_upto (n : nat) :
  forall polls g, (length polls <= n)%nat ->
    Forall (fun poll => forall key, poll = Some key -> ~ ptt_key key) polls ->
    main_loop_no_ptt polls g = main_loop polls g.
Proof.
  induction n as [| n IH]; intros polls g Hlen Hall.
  - destruct polls; [reflexivity | cbn in Hlen; lia].
  - destruct polls as [| [key |] rest]; cbn [main_loop main_loop_no_ptt]; auto;
      cbn [length] in Hlen; inversion Hall as [| ? ? Hk Hrest]; subst.
    + destruct (is_key key ESC) eqn:Ek.
      * destruct rest as [| next1 [| next2 rest2]]; auto. cbn [length] in Hlen.
        rewrite handle_key_no_ptt_same by now apply Hk.
        destruct (handle_key key next1 next2 g); [| reflexivity].
        apply IH; [lia |]. inversion Hrest as [| ? ? _ H2]; subst. now inversion H2.
      * rewrite handle_key_no_ptt_same by now apply Hk.
        destruct (handle_key key None None g); [| reflexivity].
        apply IH; [lia | assumption].
    + apply IH; [lia | assumption].
Qed.

(** X7.  The key chains of the three programs agree on every key but ['p'],
    ['P'] and space, which the two programs without push-to-talk ignore; so
    the loops agree on every run in which none of the three is read as a
    key. *)
Theorem key_chain_without_ptt (key : ascii) (next1 next2 : option ascii)
    (polls : list (option ascii)) (g : Globals) :
  (~ ptt_key key -> handle_key_no_ptt key next1 next2 g = handle_key key next1 next2 g) /\
  (ptt_key key -> handle_key_no_ptt key next1 next2 g = Some g) /\
  (Forall (fun poll => forall k, poll = Some k -> ~ ptt_key k) polls ->
   main_loop_no_ptt polls g = main_loop polls g).
Proof.
  split; [apply handle_key_no_ptt_same |].
  split; [apply handle_key_no_ptt_ignores |].
  apply (main_loop_no_ptt_same_upto (length polls)). lia.
Qed.

Lemma key_chain_without_ptt_witness :
  handle_key_no_ptt "+" None None initial_globals = handle_key "+" None None initial_globals /\
  handle_key_no_ptt " " None None initial_globals = Some initial_globals.
Proof.
  destruct (key_chain_without_ptt "+" None None [] initial_globals) as (H1 & _ & _).
  destruct (key_chain_without_ptt " " None None [] initial_globals) as (_ & H2 & _).
  split.
  - apply H1. unfold ptt_key. intros [H | [H | H]]; discriminate H.
  - apply H2. unfold ptt_key. auto.
Defined.

(** ** The keys *)

Lemma half_grid_step (p : R) (d : Z) : on_half_grid p -> on_half_grid (p + IZR d / 2).
Proof.
  intros [k ->]. exists (k + d)%Z. rewrite plus_IZR. lra.
Qed.

Lemma handle_key_half_grid (key : ascii) (next1 next2 : option ascii) (g g' : Globals) :
  on_half_grid (current_pitch g) ->
  handle_key key next1 next2 g = Some g' ->
  on_half_grid (current_pitch g').
Proof.
  intros Hg H.
  assert (Hup : on_half_grid (current_pitch g + 0.5)).
  { replace (current_pitch g + 0.5) with (current_pitch g + IZR 1 / 2) by lra.
    now apply half_grid_step. }
  assert (Hdown : on_half_grid (current_pitch g - 0.5)).
  { replace (current_pitch g - 0.5) with (current_pitch g + IZR (-1) / 2) by lra.
    now apply half_grid_step. }
  assert (Hreset : on_half_grid PITCH_SHIFT).
  { exists 6%Z. unfold PITCH_SHIFT. lra. }
  unfold handle_key in H.
  repeat match type of H with
         | (if ?c then _ else _) = _ => destruct c
         | match ?o with Some _ => _ | None => _ end = _ => destruct o
         | Some _ = Some _ => injection H as <-
         | None = Some _ => discriminate H
         end; try assumption.
  all: destruct g as [p r ptt t c]; cbn in *; destruct ptt; assumption.
Qed.

Lemma half_grid_gap (p : R) : on_half_grid p -> p = 0 \/ 0.5 <= Rabs p.
Proof.
  intros [k ->]. destruct (Z.lt_trichotomy k 0) as [Hk | [-> | Hk]].
  - right. assert (H : IZR k <= IZR (-1)) by (apply IZR_le; lia).
    rewrite Rabs_left; lra.
  - left. lra.
  - right. assert (H : IZR 1 <= IZR k) by (apply IZR_le; lia).
    rewrite Rabs_right; lra.
Qed.

(** X8.  Whatever is typed from the start of the program, the pitch is a whole
    number of half semitones; so it is either 0 or at least 0.5 away from
    0, and the callback runs the shifter exactly when the pitch is not 0
    (the values between the two thresholds of lines 30 and 107 cannot be
    reached). *)
Theorem pitch_on_half_grid (polls : list (option ascii)) :
  on_half_grid (current_pitch (main_loop polls initial_globals)) /\
  (current_pitch (main_loop polls initial_globals) = 0 \/
   0.5 <= Rabs (current_pitch (main_loop polls initial_globals))) /\
  (0.1 < Rabs (current_pitch (main_loop polls initial_globals)) <->
   current_pitch (main_loop polls initial_globals) <> 0).
Proof.
  assert (H : on_half_grid (current_pitch (main_loop polls initial_globals))).
  { apply (main_loop_preserves (fun g => on_half_grid (current_pitch g))).
    - exact handle_key_half_grid.
    - exists 6%Z. cbn [current_pitch initial_globals]. unfold PITCH_SHIFT. lra. }
  split; [exact H |].
  pose proof (half_grid_gap _ H) as Hgap.
  split; [exact Hgap |].
  split.
  - intros Hgt E. rewrite E, Rabs_R0 in Hgt. lra.
  - intros Hne. destruct Hgap as [E | Hge]; [contradiction | lra].
Qed.



(** X10.  The loop breaks on lowercase ['q'] and on nothing else (an uppercase
    ['Q'] does not quit); a key outside the chain changes nothing; an escape
    that is not followed by ['['] and ['A'] or ['B'] changes nothing. *)
Theorem keys_ignored (key : ascii) (next1 next2 : option ascii) (g : Globals) :
  (handle_key key next1 next2 g = None <-> key = "q"%char) /\
  (~ recognised key -> handle_key key next1 next2 g = Some g) /\
  (~ (next1 = Some "["%char /\ (next2 = Some "A"%char \/ next2 = Some "B"%char)) ->
   handle_key ESC next1 next2 g = Some g).
Proof.
  split; [| split].
  - split.
    + destruct (Ascii.eqb_spec key "q") as [E | N]; [auto |].
      unfold handle_key.
      replace (is_key key "q") with false by (symmetry; now apply Ascii.eqb_neq).
      intros H.
      repeat match type of H with
             | (if ?c then _ else _) = _ => destruct c
             | match ?o with Some _ => _ | None => _ end = _ => destruct o
             | Some _ = None => discriminate H
             end.
    + intros ->. reflexivity.
  - unfold recognised. intros H. unfold handle_key.
    repeat match goal with
           | |- context [is_key key ?c] =>
               replace (is_key key c) with false
                 by (symmetry; apply Ascii.eqb_neq; intros E; apply H; subst key;
                     cbn; tauto)
           end.
    reflexivity.
  - intros H. unfold handle_key. cbn [is_key Ascii.eqb Bool.eqb orb andb ESC].
    unfold is_key.
    destruct next1 as [c1 |]; [| reflexivity].
    destruct (Ascii.eqb_spec c1 "[") as [-> | _]; [| reflexivity].
    destruct next2 as [c2 |]; [| reflexivity].
    destruct (Ascii.eqb_spec c2 "A") as [-> | _]; [exfalso; apply H; auto |].
    destruct (Ascii.eqb_spec c2 "B") as [-> | _]; [exfalso; apply H; auto | reflexivity].
Qed.

Lemma keys_ignored_witness :
  handle_key "Q" None None initial_globals = Some initial_globals /\
  handle_key ESC (Some "["%char) (Some "C"%char) initial_globals = Some initial_globals.
Proof.
  destruct (keys_ignored "Q" None None initial_globals) as (_ & H1 & _).
  destruct (keys_ignored ESC (Some "["%char) (Some "C"%char) initial_globals) as (_ & _ & H2).
  split.
  - apply H1. unfold recognised. cbn. intros H.
    repeat (destruct H as [H | H]; [discriminate H |]). exact H.
  - apply H2. intros [_ [H | H]]; discriminate H.
Defined.

(** ** The pitch shifter: when it returns, and what *)

Lemma remap_loop_ok_inv (ratio : R) (spectrum : list C) (idxs : list nat) :
  forall acc r,
    remap_loop ratio spectrum idxs acc = Ok r ->
    forall i, In i idxs -> ratio <> 0 /\ Rabs (INR i / ratio) < float_inf.
Proof.
  induction idxs as [| j idxs IH]; intros acc r H i Hi; [destruct Hi |].
  cbn [remap_loop] in H. unfold truediv in H.
  destruct (Req_dec_T ratio 0) as [E | N]; [discriminate H |]. cbn [bindR] in H.
  unfold py_int in H.
  destruct (Rle_dec float_inf (Rabs (INR j / ratio))) as [Hinf | Hfin]; [discriminate H |].
  cbn [bindR] in H.
  destruct Hi as [<- | Hi].
  - split; [assumption | lra].
  - eapply IH; eauto.
Qed.

Lemma add_at_czero (a : list C) :
  all_czero a -> forall k, all_czero (add_at k czero a).
Proof.
  intros H. induction H as [| c a Hc Ha IH]; intros [| k]; cbn.
  - constructor.
  - constructor.
  - subst c. constructor; [apply cadd_czero | exact Ha].
  - constructor; [exact Hc | apply IH].
Qed.

Lemma remap_loop_zero (ratio : R) (spectrum : list C) (idxs : list nat) :
  (forall i, nth i spectrum czero = czero) ->
  forall acc r,
    all_czero acc -> remap_loop ratio spectrum idxs acc = Ok r -> all_czero r.
Proof.
  intros Hs. induction idxs as [| j idxs IH]; intros acc r Hacc H; cbn [remap_loop] in H.
  - now injection H as <-.
  - destruct (truediv j ratio) as [q |]; [| discriminate H]. cbn [bindR] in H.
    destruct (py_int q) as [z |]; [| discriminate H]. cbn [bindR] in H.
    eapply IH; [| exact H].
    destruct (_ && _)%bool; [| assumption].
    rewrite Hs. now apply add_at_czero.
Qed.

Lemma all_czero_nth (a : list C) : all_czero a -> forall k, nth k a czero = czero.
Proof.
  intros H. induction H as [| c a Hc _ IH]; intros [| k]; cbn; auto.
Qed.

(** What a returning call has gone through. *)
Lemma pitch_shift_fast_ok_inv (audio out : list R) (semitones : R) :
  pitch_shift_fast audio semitones = Ok out ->
  (Rabs semitones < 0.1 /\ out = audio) \/
  (0.1 <= Rabs semitones /\ audio <> [] /\ pitch_in_range (length audio) semitones /\
   exists shifted,
     length shifted = length audio /\
     normalize audio shifted = Ok out /\
     (all_zero audio -> all_zero shifted)).
Proof.
  unfold pitch_shift_fast. intros H.
  destruct (Rlt_dec (Rabs semitones) 0.1) as [Hlt | Hge].
  { left. now injection H as <-. }
  right. split; [lra |].
  destruct (pow2 (semitones / 12.0)) as [ratio |] eqn:Hpow; [| discriminate H].
  cbn [bindR] in H.
  assert (Hne : audio <> []).
  { intros ->. discriminate H. }
  rewrite rfft_ok in H by assumption. cbn [bindR] in H.
  set (n := length audio) in *.
  set (spectrum := map (dft_bin audio) (seq 0 (n / 2 + 1))) in *.
  destruct (shift_bins ratio spectrum) as [new_spectrum |] eqn:Hbins; [| discriminate H].
  cbn [bindR] in H.
  assert (Hn : n <> 0%nat) by (subst n; destruct audio; [contradiction | discriminate]).
  rewrite irfft_ok in H by assumption. cbn [bindR] in H.
  assert (Hlen : length spectrum = (n / 2 + 1)%nat)
    by (subst spectrum; now rewrite length_map, length_seq).
  unfold shift_bins in Hbins. rewrite Hlen in Hbins.
  assert (Hlast : ratio <> 0 /\ Rabs (INR (n / 2) / ratio) < float_inf).
  { apply (remap_loop_ok_inv _ _ _ _ _ Hbins). apply in_seq. lia. }
  destruct Hlast as [Hr0 Hq].
  assert (Hratio : -1075 < semitones / 12.0 < 1024 /\ ratio = Rpower 2 (semitones / 12.0)).
  { unfold pow2 in Hpow.
    destruct (Rle_dec 1024 (semitones / 12.0)); [discriminate Hpow |].
    destruct (Rle_dec (semitones / 12.0) (-1075)); injection Hpow as <-;
      [contradiction | split; [lra | reflexivity]]. }
  destruct Hratio as [Hy ->].
  split; [assumption |]. split.
  { split; [assumption |].
    rewrite Rabs_right in Hq; [assumption |].
    apply Rle_ge, quotient_nonneg, Rpower2_pos. }
  eexists. split; [| split; [exact H |]].
  - now rewrite length_map, length_seq.
  - intros Hz.
    assert (Hspec : forall i, nth i spectrum czero = czero).
    { intros i. destruct (Nat.lt_ge_cases i (n / 2 + 1)) as [Hi | Hi].
      - subst spectrum.
        rewrite nth_indep with (d' := dft_bin audio 0) by now rewrite length_map, length_seq.
        rewrite map_nth. now apply dft_bin_zero.
      - apply nth_overflow. now rewrite Hlen. }
    assert (Hnew : all_czero new_spectrum).
    { apply (remap_loop_zero _ _ _ Hspec _ _) in Hbins; [assumption |].
      apply Forall_forall. intros c Hc. now apply repeat_spec in Hc. }
    apply Forall_map, Forall_forall. intros m _.
    apply idft_sample_zero. now apply all_czero_nth.
Qed.

(** X11.  The shifter returns exactly on the inputs for which nothing leaves the
    double range: under the bypass threshold, or on a block that is not
    empty with the ratio and the bin quotients finite.  Everywhere else it
    raises. *)
Theorem pitch_shift_fast_returns_iff (audio : list R) (semitones : R) :
  (exists out, pitch_shift_fast audio semitones = Ok out) <->
  Rabs semitones < 0.1 \/ (audio <> [] /\ pitch_in_range (length audio) semitones).
Proof.
  split.
  - intros [out H]. apply pitch_shift_fast_ok_inv in H.
    destruct H as [[Hlt _] | (_ & Hne & Hr & _)]; auto.
  - intros [Hlt | [Hne Hr]].
    + exists audio. now apply pitch_shift_fast_under_threshold.
    + destruct (pitch_shift_fast_returns audio semitones Hne Hr) as (out & H & _). eauto.
Qed.

Lemma fold_max_ge (l : list R) :
  forall a, a <= fold_left Rmax l a /\ Forall (fun x => x <= fold_left Rmax l a) l.
Proof.
  induction l as [| x l IH]; intros a; cbn [fold_left]; [split; [lra | constructor] |].
  destruct (IH (Rmax a x)) as [H1 H2].
  pose proof (Rmax_l a x). pose proof (Rmax_r a x).
  split; [lra |]. constructor; [lra | assumption].
Qed.

Lemma np_max_abs_bound (a : list R) (m : R) :
  np_max_abs a = Ok m -> 0 <= m /\ Forall (fun v => Rabs v <= m) a.
Proof.
  destruct a as [| x t]; [discriminate |]. cbn [np_max_abs]. intros H. injection H as <-.
  destruct (fold_max_ge (map Rabs t) (Rabs x)) as [H1 H2].
  pose proof (Rabs_pos x).
  split; [lra |]. constructor; [assumption |].
  rewrite Forall_map in H2. exact H2.
Qed.

Lemma fold_max_scale (c : R) (l : list R) :
  0 <= c ->
  forall a, fold_left Rmax (map (fun x => c * x) l) (c * a) = c * fold_left Rmax l a.
Proof.
  intros Hc. induction l as [| x l IH]; intros a; cbn [map fold_left]; [reflexivity |].
  rewrite RmaxRmult by assumption. apply IH.
Qed.

Lemma np_max_abs_scaled (shifted : list R) (m p : R) :
  np_max_abs shifted = Ok m -> 0 < m -> 0 <= p ->
  np_max_abs (map (fun v => v / m * p) shifted) = Ok p.
Proof.
  intros Hm Hpos Hp. destruct shifted as [| x t]; [discriminate Hm |].
  cbn [np_max_abs map] in *. injection Hm as Hm. f_equal.
  assert (Habs : forall v, Rabs (v / m * p) = p / m * Rabs v).
  { intros v. unfold Rdiv. rewrite !Rabs_mult, Rabs_inv.
    rewrite (Rabs_right m), (Rabs_right p) by lra. field. lra. }
  rewrite map_map.
  rewrite (map_ext (fun v => Rabs (v / m * p)) (fun v => p / m * Rabs v)) by exact Habs.
  rewrite <- (map_map Rabs (fun x => p / m * x)).
  rewrite Habs, fold_max_scale.
  - rewrite Hm. field. lra.
  - apply Rmult_le_pos; [assumption |]. left. now apply Rinv_0_lt_compat.
Qed.

Lemma all_zero_of_bound (a : list R) : Forall (fun v => Rabs v <= 0) a -> all_zero a.
Proof.
  intros H. eapply Forall_impl; [| exact H]. intros v Hv. cbn beta in *.
  unfold Rabs in Hv. destruct (Rcase_abs v); lra.
Qed.

Lemma normalize_ok_inv (audio shifted out : list R) (p : R) :
  normalize audio shifted = Ok out ->
  np_max_abs audio = Ok p ->
  length out = length shifted /\
  Forall (fun y => Rabs y <= p) out /\
  (np_max_abs out = Ok p \/ all_zero out).
Proof.
  unfold normalize. intros H Hp.
  destruct (np_max_abs shifted) as [m |] eqn:Hm; [| discriminate H]. cbn [bindR] in H.
  destruct (np_max_abs_bound _ _ Hm) as [Hm0 Hmb].
  destruct (np_max_abs_bound _ _ Hp) as [Hp0 _].
  destruct (Rlt_dec 0 m) as [Hpos | Hnpos].
  - rewrite Hp in H. cbn [bindR] in H. injection H as <-.
    split; [apply length_map |]. split.
    + apply Forall_map. eapply Forall_impl; [| exact Hmb]. intros v Hv. cbn beta in *.
      unfold Rdiv. rewrite !Rabs_mult, Rabs_inv, (Rabs_right m), (Rabs_right p) by lra.
      assert (Hq : Rabs v * / m <= 1).
      { apply Rmult_le_reg_r with m; [assumption |].
        rewrite Rmult_assoc, Rinv_l by lra. lra. }
      pose proof (Rabs_pos v).
      assert (0 <= Rabs v * / m).
      { apply Rmult_le_pos; [assumption |]. left. now apply Rinv_0_lt_compat. }
      nra.
    + left. now apply np_max_abs_scaled.
  - injection H as <-. split; [reflexivity |].
    assert (Hz : all_zero shifted).
    { apply all_zero_of_bound. eapply Forall_impl; [| exact Hmb]. intros v Hv. cbn beta in *. lra. }
    split; [| now right].
    eapply Forall_impl; [| exact Hz]. intros v ->. rewrite Rabs_R0. assumption.
Qed.

(** X12.  A block that the shifter returns has the length of its input, so the
    length fix-up of lines 111-114 of the callback never changes it. *)
Theorem shifter_keeps_length (audio out : list R) (semitones : R) :
  pitch_shift_fast audio semitones = Ok out ->
  length out = length audio /\ fix_length (length audio) out = out.
Proof.
  intros H.
  assert (Hlen : length out = length audio).
  { apply pitch_shift_fast_ok_inv in H.
    destruct H as [[_ ->] | (_ & Hne & _ & shifted & Hl & Hn & _)]; [reflexivity |].
    destruct (np_max_abs_ok audio Hne) as [p Hp].
    destruct (normalize_ok_inv _ _ _ _ Hn Hp) as [Hlo _]. congruence. }
  split; [exact Hlen |].
  unfold fix_length. rewrite Hlen, Nat.ltb_irrefl. reflexivity.
Qed.

Lemma shifter_keeps_length_witness :
  exists out,
    pitch_shift_fast [1; -0.5; 0.25; 0] 3 = Ok out /\
    length out = length [1; -0.5; 0.25; 0] /\
    fix_length (length [1; -0.5; 0.25; 0]) out = out.
Proof.
  destruct (pitch_shift_fast_returns [1; -0.5; 0.25; 0] 3) as (out & Hout & _).
  - discriminate.
  - apply pitch_in_range_practical; [lra | simpl; lra].
  - exists out. split; [exact Hout |].
    exact (shifter_keeps_length [1; -0.5; 0.25; 0] out 3 Hout).
Defined.



(** ** The direction of the shift *)
















(** ** Silence *)

Lemma all_zero_is_zeros (a : list R) : all_zero a -> a = np_zeros (length a).
Proof.
  intros H. induction H as [| x a Hx _ IH]; cbn; [reflexivity |].
  subst x. unfold np_zeros in IH. now rewrite <- IH.
Qed.

Lemma all_zero_map (f : R -> R) (a : list R) : f 0 = 0 -> all_zero a -> all_zero (map f a).
Proof.
  intros Hf H. apply Forall_map. eapply Forall_impl; [| exact H].
  intros v ->. exact Hf.
Qed.

Lemma np_binop_zero (f : R -> R -> R) (a b r : list R) :
  (forall x y, In x a -> In y b -> f x y = 0) ->
  np_binop f a b = Ok r -> all_zero r.
Proof.
  intros Hf. unfold np_binop.
  destruct (length a =? length b)%nat.
  { intros H. injection H as <-. unfold map2. apply Forall_map, Forall_forall.
    intros [x y] Hin. cbn [fst snd].
    apply Hf; [eapply in_combine_l | eapply in_combine_r]; eassumption. }
  destruct (Nat.eqb_spec (length b) 1) as [Eb | _].
  { intros H. injection H as <-. apply Forall_map, Forall_forall. intros x Hx.
    apply Hf; [assumption |]. apply nth_In. lia. }
  destruct (Nat.eqb_spec (length a) 1) as [Ea | _]; [| discriminate].
  intros H. injection H as <-. apply Forall_map, Forall_forall. intros y Hy.
  apply Hf; [| assumption]. apply nth_In. lia.
Qed.

Lemma all_zero_In (a : list R) (x : R) : all_zero a -> In x a -> x = 0.
Proof. intros H. unfold all_zero in H. rewrite Forall_forall in H. apply H. Qed.

Lemma np_round_0 : np_round 0 = 0.
Proof.
  unfold np_round. rewrite (Int_part_between 0 0) by lra.
  destruct (Rlt_dec (0 - 0) (1 / 2)); [reflexivity | lra].
Qed.

Lemma bit_reduce_0 : bit_reduce 0 = 0.
Proof. unfold bit_reduce. rewrite Rmult_0_l, np_round_0. unfold Rdiv. ring. Qed.

Lemma soft_clip_0 : soft_clip 0 = 0.
Proof.
  unfold soft_clip, tanh. rewrite Rmult_0_l, sinh_0. unfold Rdiv. ring.
Qed.

Lemma robotic_shape_zero (audio carrier out : list R) (intensity : R) :
  all_zero audio -> robotic_shape audio carrier intensity = Ok out -> all_zero out.
Proof.
  intros Hz. unfold robotic_shape, ring_modulate. intros H.
  destruct (np_binop Rmult audio carrier) as [ac |] eqn:Hac; [| discriminate H].
  cbn [bindR] in H.
  assert (Hacz : all_zero ac).
  { apply (np_binop_zero _ _ _ _) in Hac; [assumption |].
    intros x y Hx _. rewrite (all_zero_In _ _ Hz Hx). ring. }
  destruct (np_binop Rplus _ _) as [modulated |] eqn:Hm; [| discriminate H].
  cbn [bindR] in H. injection H as <-.
  assert (Hmz : all_zero modulated).
  { apply (np_binop_zero _ _ _ _) in Hm; [assumption |].
    intros x y Hx Hy. unfold np_scale in Hx, Hy.
    apply in_map_iff in Hx. destruct Hx as (x' & <- & Hx').
    apply in_map_iff in Hy. destruct Hy as (y' & <- & Hy').
    rewrite (all_zero_In _ _ Hacz Hx'), (all_zero_In _ _ Hz Hy'). ring. }
  apply all_zero_map; [exact soft_clip_0 |].
  apply all_zero_map; [exact bit_reduce_0 | exact Hmz].
Qed.

Lemma fix_length_zero (rows : nat) (a : list R) : all_zero a -> all_zero (fix_length rows a).
Proof.
  intros H. unfold fix_length, slice_to, np_zeros.
  destruct (rows <? length a)%nat.
  - apply Forall_forall. intros x Hx.
    apply (all_zero_In _ _ H). rewrite <- (firstn_skipn rows a).
    apply in_or_app. now left.
  - destruct (length a <? rows)%nat; [| assumption].
    apply Forall_app. split; [assumption |].
    apply Forall_forall. intros x Hx. now apply repeat_spec in Hx.
Qed.

Lemma clip_gain_zero (a : list R) :
  all_zero a -> all_zero (np_clip (-0.95) 0.95 (np_scale a 2.2)).
Proof.
  intros H. unfold np_clip, np_scale.
  apply all_zero_map; [| apply all_zero_map; [lra | exact H]].
  unfold Rmin, Rmax. destruct (Rle_dec 0 (-0.95)); [lra |].
  destruct (Rle_dec 0.95 0); lra.
Qed.

Lemma process_zero (rows : nat) (mono : list R) (g g1 : Globals) (w : list R) :
  all_zero mono ->
  process rows mono g = (Ok (w, w), g1) ->
  w = np_zeros rows.
Proof.
  intros Hz H.
  destruct (process_ok_inv _ _ _ _ _ H) as (w' & Ew & Hlen & _).
  injection Ew as <-.
  unfold process in H.
  apply bind_ok_inv in H. destruct H as (pitch & ga & Hread & H).
  unfold read in Hread. injection Hread as <- <-.
  apply bind_ok_inv in H. destruct H as (shifted & gb & Hshift & H).
  assert (Hsz : all_zero shifted).
  { destruct (Rlt_dec 0.1 (Rabs (current_pitch g))).
    - apply bind_ok_inv in Hshift. destruct Hshift as (s & gs & Hs & Hret).
      unfold lift in Hs. unfold ret in Hret. injection Hret as <- _.
      destruct (pitch_shift_fast mono (current_pitch g)) as [s' |] eqn:Hp; [| discriminate Hs].
      injection Hs as <- _. apply fix_length_zero.
      apply pitch_shift_fast_ok_inv in Hp.
      destruct Hp as [[_ ->] | (_ & Hne & _ & shifted' & _ & Hn & Hzz)]; [assumption |].
      rewrite normalize_zero_peak in Hn.
      + injection Hn as <-. auto.
      + intros E. specialize (Hzz Hz). subst shifted'.
        unfold normalize in Hn. discriminate Hn.
      + auto.
    - unfold ret in Hshift. now injection Hshift as <- _. }
  apply bind_ok_inv in H. destruct H as (robotic & gc & _ & H).
  apply bind_ok_inv in H. destruct H as (shifted' & gd & Hrob & H).
  assert (Hsz' : all_zero shifted').
  { destruct robotic.
    - unfold apply_robotic_effect in Hrob.
      apply bind_ok_inv in Hrob. destruct Hrob as (carrier & ge & _ & Hshape).
      unfold lift in Hshape.
      destruct (robotic_shape shifted carrier 0.7) as [o |] eqn:Ho; [| discriminate Hshape].
      injection Hshape as <- _. now apply (robotic_shape_zero _ _ _ _ Hsz Ho).
    - unfold ret in Hrob. now injection Hrob as <- _. }
  pose proof (clip_gain_zero _ Hsz') as Hv.
  destruct (write_stereo_inv rows (np_clip (-0.95) 0.95 (np_scale shifted' 2.2)) gd)
    as [E | (w0 & E & Hl0 & Hw0)]; rewrite E in H; [discriminate H |].
  injection H as <- _.
  destruct Hw0 as [-> | ->].
  - rewrite <- Hl0. now apply all_zero_is_zeros.
  - unfold np_zeros. f_equal. now apply all_zero_nth.
Qed.

(** X2.  Silence in, silence out: on an all-zero block both channels are all
    zero in every state, whether the block is muted, processed or passed
    through after an exception. *)
Theorem silence_in_silence_out (indata : InData) (g : Globals) :
  all_zero (mono_of indata) ->
  exists g',
    audio_callback indata g
    = (Ok (np_zeros (frames indata), np_zeros (frames indata)), g').
Proof.
  intros Hz. rewrite audio_callback_eq. destruct (muted g).
  - rewrite write_stereo_same_length by apply np_zeros_length. eauto.
  - unfold try_except.
    destruct (process (frames indata) (mono_of indata) g) as [[out | e] g1] eqn:Hp.
    + destruct (process_ok_inv _ _ _ _ _ Hp) as (w & -> & _ & _).
      rewrite (process_zero _ _ _ _ _ Hz Hp). eauto.
    + rewrite passthrough_eq. exists g1. repeat f_equal.
      all: rewrite (all_zero_is_zeros (np_scale (mono_of indata) 1.5)),
             np_scale_length, mono_of_length;
        [reflexivity | apply all_zero_map; [lra | exact Hz]].
Qed.

Lemma silence_in_silence_out_witness :
  exists g',
    audio_callback (mkInData 256 0 (fun _ _ => 0)) initial_globals
    = (Ok (np_zeros 256, np_zeros 256), g').
Proof.
  apply (silence_in_silence_out (mkInData 256 0 (fun _ _ => 0)) initial_globals).
  rewrite mono_of_column0. unfold column0. apply Forall_map, Forall_forall.
  intros r _. reflexivity.
Defined.

(** ** What the carrier read returns *)

Lemma mod_second_wrap (a n : nat) :
  (n <= a < 2 * n)%nat -> (a mod n = a - n)%nat.
Proof.
  intros H. replace a with (a - n + 1 * n)%nat at 1 by lia.
  rewrite Nat.Div0.mod_add. apply Nat.mod_small. lia.
Qed.

Lemma carrier_segment_nth (start_idx n j : nat) :
  (start_idx < carrier_table_size)%nat ->
  (start_idx + n <= 2 * carrier_table_size)%nat ->
  (j < n)%nat ->
  nth j (carrier_segment start_idx n) 0
  = nth ((start_idx + j) mod carrier_table_size) carrier_table 0.
Proof.
  intros Hs Hn Hj. unfold carrier_segment, slice, slice_from, slice_to.
  destruct (Nat.leb_spec (start_idx + n) carrier_table_size) as [Hle | Hgt].
  - rewrite nth_firstn. destruct (Nat.ltb_spec j (start_idx + n - start_idx)); [| lia].
    rewrite nth_skipn. f_equal. symmetry. apply Nat.mod_small. lia.
  - destruct (Nat.lt_ge_cases j (carrier_table_size - start_idx)) as [Hj1 | Hj2].
    + rewrite app_nth1 by (rewrite length_skipn, carrier_table_length; lia).
      rewrite nth_skipn. f_equal. symmetry. apply Nat.mod_small. lia.
    + rewrite app_nth2 by (rewrite length_skipn, carrier_table_length; lia).
      rewrite length_skipn, carrier_table_length, nth_firstn.
      destruct (Nat.ltb_spec (j - (carrier_table_size - start_idx))
                             (start_idx + n - carrier_table_size)); [| lia].
      f_equal. rewrite mod_second_wrap by lia. lia.
Qed.

(** X15.  Two reads in a row return, one after the other, what one read of the
    total length returns, and leave the same cursor: the carrier is the
    table read round and round, however the samples are asked for (as long
    as no single read spans more than one wrap). *)
Theorem carrier_reads_concatenate (n1 n2 : nat) (g : Globals) :
  (carrier_idx g < carrier_table_size)%nat ->
  (carrier_idx g + n1 + n2 <= 2 * carrier_table_size)%nat ->
  exists c1 c2 g1 g2,
    read_carrier n1 g = (Ok c1, g1) /\
    read_carrier n2 g1 = (Ok c2, g2) /\
    read_carrier (n1 + n2) g = (Ok (c1 ++ c2), g2) /\
    (forall j, (j < n1 + n2)%nat ->
       nth j (c1 ++ c2) 0
       = nth ((carrier_idx g + j) mod carrier_table_size) carrier_table 0).
Proof.
  intros Hc Hn. pose proof carrier_table_size_pos as Hpos.
  set (c := carrier_idx g) in *. set (c' := ((c + n1) mod carrier_table_size)%nat).
  assert (Hc' : (c' < carrier_table_size)%nat) by (apply Nat.mod_upper_bound; lia).
  assert (Hn2 : (c' + n2 <= 2 * carrier_table_size)%nat).
  { destruct (Nat.lt_ge_cases (c + n1) carrier_table_size) as [H | H].
    - subst c'. rewrite Nat.mod_small by assumption. lia.
    - lia. }
  exists (carrier_segment c n1), (carrier_segment c' n2).
  exists (set_carrier_idx c' g),
         (set_carrier_idx ((c' + n2) mod carrier_table_size) (set_carrier_idx c' g)).
  assert (Hcat : carrier_segment c (n1 + n2) = carrier_segment c n1 ++ carrier_segment c' n2).
  { apply nth_ext with (d := 0) (d' := 0).
    - rewrite length_app, !carrier_segment_length by assumption. lia.
    - rewrite carrier_segment_length by assumption. intros j Hj.
      rewrite carrier_segment_nth by lia.
      destruct (Nat.lt_ge_cases j n1) as [Hj1 | Hj2].
      + rewrite app_nth1 by (rewrite carrier_segment_length by assumption; lia).
        now rewrite carrier_segment_nth by lia.
      + rewrite app_nth2 by (rewrite carrier_segment_length by assumption; lia).
        rewrite carrier_segment_length by assumption.
        replace (Nat.min n1 (2 * carrier_table_size - c)) with n1 by lia.
        rewrite carrier_segment_nth by lia.
        subst c'. rewrite Nat.Div0.add_mod_idemp_l. f_equal. f_equal. lia. }
  split; [apply read_carrier_eq |].
  split; [rewrite read_carrier_eq, carrier_idx_set; reflexivity |].
  split.
  - rewrite read_carrier_eq. fold c. rewrite Hcat. f_equal.
    subst c'. rewrite Nat.Div0.add_mod_idemp_l, Nat.add_assoc. now destruct g.
  - intros j Hj. rewrite <- Hcat. apply carrier_segment_nth; lia.
Qed.

Lemma carrier_reads_concatenate_witness :
  exists c1 c2 g1 g2,
    read_carrier 256 (mkGlobals 3.0 true false false 4700) = (Ok c1, g1) /\
    read_carrier 256 g1 = (Ok c2, g2) /\
    read_carrier (256 + 256) (mkGlobals 3.0 true false false 4700) = (Ok (c1 ++ c2), g2) /\
    (forall j, (j < 256 + 256)%nat ->
       nth j (c1 ++ c2) 0 = nth ((4700 + j) mod carrier_table_size) carrier_table 0).
Proof.
  apply (carrier_reads_concatenate 256 256 (mkGlobals 3.0 true false false 4700));
    cbn [carrier_idx]; rewrite carrier_table_size_eq; lia.
Defined.

Lemma sine_one_table_on (n : nat) :
  sin (2 * PI * 95 * INR (n + carrier_table_size) / IZR SAMPLE_RATE)
  = - sin (2 * PI * 95 * INR n / IZR SAMPLE_RATE).
Proof.
  rewrite plus_INR, carrier_table_size_eq, (INR_IZR_INZ 4800).
  change (Z.of_nat 4800) with 4800%Z. unfold SAMPLE_RATE.
  replace (2 * PI * 95 * (INR n + 4800) / 48000)
    with (2 * PI * 95 * INR n / 48000 + PI + 2 * INR 9 * PI) by (simpl; field).
  now rewrite sin_period, neg_sin.
Qed.

(** X16.  The table holds nine and a half periods of the 95 Hz carrier, not a
    whole number: in a read that wraps, the samples before the end of the
    table are the sine at the running position, and the samples after the
    wrap are the negation of the sine at the running position. *)
Theorem carrier_wrap_flips_sign (start_idx n j : nat) :
  (start_idx < carrier_table_size)%nat ->
  (start_idx + n <= 2 * carrier_table_size)%nat ->
  (j < n)%nat ->
  ((start_idx + j < carrier_table_size)%nat ->
   nth j (carrier_segment start_idx n) 0
   = sin (2 * PI * 95 * INR (start_idx + j) / IZR SAMPLE_RATE)) /\
  ((carrier_table_size <= start_idx + j)%nat ->
   nth j (carrier_segment start_idx n) 0
   = - sin (2 * PI * 95 * INR (start_idx + j) / IZR SAMPLE_RATE)).
Proof.
  intros Hs Hn Hj. rewrite carrier_segment_nth by assumption. split; intros H.
  - rewrite Nat.mod_small by assumption. now apply carrier_table_nth.
  - rewrite mod_second_wrap by lia. rewrite carrier_table_nth by lia.
    replace (start_idx + j)%nat
      with (start_idx + j - carrier_table_size + carrier_table_size)%nat at 2 by lia.
    rewrite sine_one_table_on. lra.
Qed.

Lemma carrier_wrap_flips_sign_witness :
  nth 200 (carrier_segment 4700 256) 0
  = - sin (2 * PI * 95 * INR (4700 + 200) / IZR SAMPLE_RATE).
Proof.
  apply (proj2 (carrier_wrap_flips_sign 4700 256 200
                  ltac:(rewrite carrier_table_size_eq; lia)
                  ltac:(rewrite carrier_table_size_eq; lia)
                  ltac:(lia))).
  rewrite carrier_table_size_eq. lia.
Defined.

(** ** The bit reduction *)

Lemma np_round_cases (x : R) :
  (np_round x = IZR (Int_part x) /\ x - IZR (Int_part x) <= 1 / 2) \/
  (np_round x = IZR (Int_part x + 1) /\ 1 / 2 <= x - IZR (Int_part x)).
Proof.
  unfold np_round.
  destruct (Rlt_dec (x - IZR (Int_part x)) (1 / 2)); [left; split; [reflexivity | lra] |].
  destruct (Rlt_dec (1 / 2) (x - IZR (Int_part x))); [right; split; [reflexivity | lra] |].
  destruct (Z.even (Int_part x)); [left | right]; split; try reflexivity; lra.
Qed.

Lemma np_round_error (x : R) : Rabs (np_round x - x) <= 1 / 2.
Proof.
  destruct (base_Int_part x) as [H1 H2].
  destruct (np_round_cases x) as [[-> H] | [-> H]]; apply Rabs_le.
  - lra.
  - rewrite plus_IZR. lra.
Qed.

Lemma np_round_IZR (k : Z) : np_round (IZR k) = IZR k.
Proof.
  unfold np_round. rewrite (Int_part_between k (IZR k)) by lra.
  destruct (Rlt_dec (IZR k - IZR k) (1 / 2)); [reflexivity | lra].
Qed.

Lemma two_pow_bits : 2 ^ bits = 1024.
Proof. unfold bits. simpl. lra. Qed.

(** X17.  The bit reduction returns a multiple of 1/1024 that is within half a
    step (1/2048) of the sample, and it leaves such a multiple as it is:
    reducing twice is reducing once. *)
Theorem bit_reduce_quantizes (y : R) :
  (exists k : Z, bit_reduce y = IZR k / 1024) /\
  Rabs (bit_reduce y - y) <= 1 / 2048 /\
  bit_reduce (bit_reduce y) = bit_reduce y.
Proof.
  unfold bit_reduce. rewrite two_pow_bits.
  assert (Hk : exists k : Z, np_round (y * 1024) = IZR k).
  { destruct (np_round_cases (y * 1024)) as [[-> _] | [-> _]]; eauto. }
  destruct Hk as [k Hk]. split; [exists k; now rewrite Hk |]. split.
  - pose proof (np_round_error (y * 1024)) as He.
    replace (np_round (y * 1024) / 1024 - y) with ((np_round (y * 1024) - y * 1024) / 1024)
      by field.
    unfold Rdiv at 1. rewrite Rabs_mult, (Rabs_right (/ 1024)) by lra. lra.
  - rewrite Hk. replace (IZR k / 1024 * 1024) with (IZR k) by field.
    now rewrite np_round_IZR.
Qed.

(** ** When the pipeline raises *)

(** X18.  From a cursor inside the table the effect raises exactly on a block
    longer than what is left of two table lengths. *)
Theorem robotic_effect_raises_iff (audio : list R) (intensity : R) (g : Globals) :
  (carrier_idx g < carrier_table_size)%nat ->
  (raises (fst (apply_robotic_effect audio intensity g)) <->
   (2 * carrier_table_size - carrier_idx g < length audio)%nat).
Proof.
  intros Hc. split.
  - intros [e He].
    destruct (Nat.lt_ge_cases (2 * carrier_table_size - carrier_idx g) (length audio))
      as [H | H]; [assumption |].
    destruct (apply_robotic_effect_bounded audio intensity g Hc) as (out & Hout & _); [lia |].
    rewrite Hout in He. discriminate He.
  - intros H. rewrite apply_robotic_effect_too_long by assumption. now exists ValueError.
Qed.

Lemma robotic_effect_raises_iff_witness :
  raises (fst (apply_robotic_effect (repeat 0 (2 * 4800 + 1)) 0.7 initial_globals)) <->
  (2 * carrier_table_size - carrier_idx initial_globals
   < length (repeat 0 (2 * 4800 + 1)))%nat.
Proof.
  apply (robotic_effect_raises_iff (repeat 0 (2 * 4800 + 1)) 0.7 initial_globals).
  cbn [carrier_idx initial_globals]. apply carrier_table_size_pos.
Defined.

Lemma pitch_in_range_dec (n : nat) (semitones : R) :
  {pitch_in_range n semitones} + {~ pitch_in_range n semitones}.
Proof.
  unfold pitch_in_range.
  destruct (Rlt_dec (-1075) (semitones / 12.0)); [| right; lra].
  destruct (Rlt_dec (semitones / 12.0) 1024); [| right; lra].
  destruct (Rlt_dec (INR (n / 2) / Rpower 2 (semitones / 12.0)) float_inf);
    [left; lra | right; tauto].
Qed.

Lemma pitch_shift_fast_raises (audio : list R) (semitones : R) :
  0.1 <= Rabs semitones ->
  ~ (audio <> [] /\ pitch_in_range (length audio) semitones) ->
  raises (pitch_shift_fast audio semitones).
Proof.
  intros Hs Hn. destruct (pitch_shift_fast audio semitones) as [out | e] eqn:H.
  - apply pitch_shift_fast_ok_inv in H.
    destruct H as [[Hlt _] | (_ & Hne & Hr & _)]; [lra | tauto].
  - now exists e.
Qed.

(** X19.  From a cursor inside the table, the body of the [try] raises exactly
    when the shifter is run outside its domain (an empty block, or a pitch
    that leaves the double range) or the effect is on and the block is
    longer than what is left of two table lengths.  In every other case the
    fallback is not taken. *)
Theorem process_raises_iff (rows : nat) (mono : list R) (g : Globals) :
  length mono = rows ->
  (carrier_idx g < carrier_table_size)%nat ->
  (raises (fst (process rows mono g)) <->
   (0.1 < Rabs (current_pitch g) /\
    ~ (rows <> 0%nat /\ pitch_in_range rows (current_pitch g))) \/
   (robotic_enabled g = true /\ (2 * carrier_table_size - carrier_idx g < rows)%nat)).
Proof.
  intros Hlen Hc. split.
  - intros [e He].
    destruct (Rlt_dec 0.1 (Rabs (current_pitch g))) as [Hgt | Hle].
    + destruct (Nat.eq_dec rows 0) as [E0 | N0]; [left; tauto |].
      destruct (pitch_in_range_dec rows (current_pitch g)) as [Hr | Hr]; [| left; tauto].
      right.
      destruct (robotic_enabled g) eqn:Er.
      * split; [reflexivity |].
        destruct (Nat.lt_ge_cases (2 * carrier_table_size - carrier_idx g) rows); [assumption |].
        destruct (process_completes rows mono g Hlen) as (out & g1 & Hok);
          [right; auto | right; split; [assumption | lia] |].
        rewrite Hok in He. discriminate He.
      * destruct (process_completes rows mono g Hlen) as (out & g1 & Hok);
          [right; auto | left; assumption |].
        rewrite Hok in He. discriminate He.
    + right.
      destruct (robotic_enabled g) eqn:Er.
      * split; [reflexivity |].
        destruct (Nat.lt_ge_cases (2 * carrier_table_size - carrier_idx g) rows); [assumption |].
        destruct (process_completes rows mono g Hlen) as (out & g1 & Hok);
          [left; lra | right; split; [assumption | lia] |].
        rewrite Hok in He. discriminate He.
      * destruct (process_completes rows mono g Hlen) as (out & g1 & Hok);
          [left; lra | left; assumption |].
        rewrite Hok in He. discriminate He.
  - intros H. unfold process, bind, read, lift, ret.
    destruct (Rlt_dec 0.1 (Rabs (current_pitch g))) as [Hgt | Hle].
    + destruct (pitch_shift_fast mono (current_pitch g)) as [s | e] eqn:Hp;
        [| now exists e].
      destruct H as [[_ Hn] | [Hr Hlong]].
      * exfalso. apply pitch_shift_fast_ok_inv in Hp.
        destruct Hp as [[Hlt _] | (_ & Hne & Hin & _)]; [lra |].
        apply Hn. rewrite <- Hlen. split; [| assumption].
        destruct mono; [contradiction | discriminate].
      * rewrite Hr. rewrite apply_robotic_effect_too_long;
          [now exists ValueError | assumption | now rewrite fix_length_length].
    + destruct H as [[Hgt _] | [Hr Hlong]]; [lra |].
      rewrite Hr. rewrite apply_robotic_effect_too_long;
        [now exists ValueError | assumption | now rewrite Hlen].
Qed.

Lemma process_raises_iff_witness :
  raises (fst (process 0 [] initial_globals)) <->
  (0.1 < Rabs (current_pitch initial_globals) /\
   ~ (0%nat <> 0%nat /\ pitch_in_range 0 (current_pitch initial_globals))) \/
  (robotic_enabled initial_globals = true /\
   (2 * carrier_table_size - carrier_idx initial_globals < 0)%nat).
Proof.
  apply (process_raises_iff 0 [] initial_globals).
  - reflexivity.
  - cbn [carrier_idx initial_globals]. apply carrier_table_size_pos.
Defined.

(** X20.  In normal operation, a block of 1 to 4800 frames with samples in
    [[-1, 1]], a pitch within 12000 semitones either way, the cursor inside
    the table and the gate open, the pipeline does not raise: the callback
    writes the clipped block it has processed, not the fallback, and leaves
    the cursor inside the table. *)
Theorem normal_operation (indata : InData) (g : Globals) :
  samples_in_unit_range indata ->
  muted g = false ->
  (1 <= frames indata <= carrier_table_size)%nat ->
  -12000 <= current_pitch g <= 12000 ->
  (carrier_idx g < carrier_table_size)%nat ->
  exists w g',
    process (frames indata) (mono_of indata) g = (Ok (w, w), g') /\
    audio_callback indata g = (Ok (w, w), g') /\
    length w = frames indata /\
    Forall in_clip_range w /\
    (carrier_idx g' < carrier_table_size)%nat.
Proof.
  intros _ Hm Hf Hp Hc.
  destruct (process_completes (frames indata) (mono_of indata) g) as (out & g1 & Hok).
  - apply mono_of_length.
  - right. split; [lia |]. apply pitch_in_range_practical; [assumption |].
    apply Rle_trans with (INR carrier_table_size); [apply le_INR; lia |].
    rewrite carrier_table_size_eq, INR_IZR_INZ.
    change (Z.of_nat 4800) with 4800%Z. lra.
  - right. split; [assumption | lia].
  - destruct (process_ok_inv _ _ _ _ _ Hok) as (w & -> & Hl & Hr).
    exists w, g1. split; [exact Hok |].
    split; [now apply callback_on_completion |].
    split; [exact Hl |]. split; [exact Hr |].
    pose proof (process_cursor (frames indata) (mono_of indata) g) as Hcur.
    rewrite Hok in Hcur. cbn [snd] in Hcur. rewrite Hcur.
    destruct (robotic_enabled g); [| assumption].
    destruct (Rlt_dec 0.1 (Rabs (current_pitch g))); [| apply advance_in_table].
    destruct (pitch_shift_fast _ _); [apply advance_in_table | assumption].
Qed.

Lemma normal_operation_witness :
  exists w g',
    process 256 (mono_of (mkInData 256 0 (fun _ _ => 1))) initial_globals = (Ok (w, w), g') /\
    audio_callback (mkInData 256 0 (fun _ _ => 1)) initial_globals = (Ok (w, w), g') /\
    length w = 256%nat /\
    Forall in_clip_range w /\
    (carrier_idx g' < carrier_table_size)%nat.
Proof.
  apply (normal_operation (mkInData 256 0 (fun _ _ => 1)) initial_globals).
  - intros r c. cbn [sample]. lra.
  - reflexivity.
  - cbn [frames]. rewrite carrier_table_size_eq. lia.
  - cbn [current_pitch initial_globals]. unfold PITCH_SHIFT. lra.
  - cbn [carrier_idx initial_globals]. apply carrier_table_size_pos.
Defined.

(** X21.  With the gate open, the pitch under the threshold and the effect
    off, the callback is the gain and the clip alone and writes no global:
    both channels hold [frames] samples, and sample [i] is 2.2 times sample
    [i] of the first input channel, replaced by -0.95 when that is below
    -0.95 and by 0.95 when it is above 0.95. *)
Theorem callback_gain_only (indata : InData) (g : Globals) :
  muted g = false ->
  Rabs (current_pitch g) <= 0.1 ->
  robotic_enabled g = false ->
  exists ch,
    audio_callback indata g = (Ok (ch, ch), g) /\
    length ch = frames indata /\
    forall i, (i < frames indata)%nat ->
      (sample indata i 0 * 2.2 <= -0.95 -> nth i ch 0 = -0.95) /\
      (-0.95 <= sample indata i 0 * 2.2 <= 0.95 -> nth i ch 0 = sample indata i 0 * 2.2) /\
      (0.95 <= sample indata i 0 * 2.2 -> nth i ch 0 = 0.95).
Proof.
  intros Hm Hp Hr.
  exists (np_clip (-0.95) 0.95 (np_scale (mono_of indata) 2.2)).
  split; [now apply callback_gain_and_clip |].
  split; [rewrite np_clip_length, np_scale_length; apply mono_of_length |].
  intros i Hi.
  rewrite np_clip_nth by (rewrite np_scale_length, mono_of_length; exact Hi).
  rewrite np_scale_nth, mono_of_nth by exact Hi.
  unfold Rmin, Rmax.
  destruct (Rle_dec (sample indata i 0 * 2.2) (-0.95));
    destruct (Rle_dec 0.95 _); repeat split; intros; lra.
Qed.

(** The block of the three samples 1, 0.25 and -1 comes out as 0.95, 0.55
    and -0.95. *)
Lemma callback_gain_only_witness :
  audio_callback (mkInData 3 0 (fun r _ => if (r =? 0)%nat then 1
                                           else if (r =? 1)%nat then 0.25 else -1))
                 (mkGlobals 0 false false false 0)
  = (Ok ([0.95; 0.55; -0.95], [0.95; 0.55; -0.95]), mkGlobals 0 false false false 0).
Proof.
  destruct (callback_gain_only
              (mkInData 3 0 (fun r _ => if (r =? 0)%nat then 1
                                        else if (r =? 1)%nat then 0.25 else -1))
              (mkGlobals 0 false false false 0))
    as (ch & Hcb & Hlen & Hnth).
  - reflexivity.
  - cbn [current_pitch]. rewrite Rabs_R0. lra.
  - reflexivity.
  - rewrite Hcb. cbn [frames] in Hlen, Hnth.
    destruct ch as [| a [| b [| c [| d ch]]]]; try discriminate Hlen.
    destruct (Hnth 0%nat ltac:(lia)) as (_ & _ & H0).
    destruct (Hnth 1%nat ltac:(lia)) as (_ & H1 & _).
    destruct (Hnth 2%nat ltac:(lia)) as (H2 & _ & _).
    cbn in H0, H1, H2.
    rewrite H0, H1, H2 by lra. repeat f_equal; lra.
Defined.

(** ** Polarity *)

Lemma np_neg_length (a : list R) : length (np_neg a) = length a.
Proof. apply length_map. Qed.

Lemma np_neg_nth (a : list R) (m : nat) : nth m (np_neg a) 0 = - nth m a 0.
Proof.
  revert m. induction a as [| x a IH]; intros [| m]; cbn; try lra. apply IH.
Qed.

Lemma cneg_czero : cneg czero = czero.
Proof. unfold cneg, czero. cbn. f_equal; lra. Qed.

Lemma cneg_nth (a : list C) (k : nat) : nth k (map cneg a) czero = cneg (nth k a czero).
Proof.
  rewrite <- cneg_czero at 1. apply map_nth.
Qed.

Lemma Rsum_ext (f h : nat -> R) (n : nat) : (forall k, f k = h k) -> Rsum f n = Rsum h n.
Proof.
  intros H. unfold Rsum. induction (seq 0 n) as [| k l IH]; cbn; [reflexivity |].
  now rewrite H, IH.
Qed.

Lemma Rsum_opp (f : nat -> R) (n : nat) : Rsum (fun k => - f k) n = - Rsum f n.
Proof.
  unfold Rsum. induction (seq 0 n) as [| k l IH]; cbn; [lra |]. rewrite IH. lra.
Qed.

Lemma dft_bin_neg (x : list R) (k : nat) : dft_bin (np_neg x) k = cneg (dft_bin x k).
Proof.
  unfold dft_bin, cneg. rewrite np_neg_length. cbn [fst snd]. f_equal.
  - rewrite <- Rsum_opp. apply Rsum_ext. intros m. rewrite np_neg_nth. lra.
  - f_equal. rewrite <- Rsum_opp. apply Rsum_ext. intros m. rewrite np_neg_nth. lra.
Qed.

Lemma rfft_neg (x : list R) : rfft (np_neg x) = map_result (map cneg) (rfft x).
Proof.
  unfold rfft. rewrite np_neg_length. destruct (length x); [reflexivity |].
  cbn [map_result]. f_equal. rewrite map_map. apply map_ext. intros k. apply dft_bin_neg.
Qed.

Lemma cadd_cneg (a b : C) : cadd (cneg a) (cneg b) = cneg (cadd a b).
Proof. unfold cadd, cneg. cbn. f_equal; lra. Qed.

Lemma add_at_neg (k : nat) (v : C) (a : list C) :
  add_at k (cneg v) (map cneg a) = map cneg (add_at k v a).
Proof.
  revert k. induction a as [| x a IH]; intros [| k]; cbn; try reflexivity.
  - now rewrite cadd_cneg.
  - now rewrite IH.
Qed.

Lemma remap_loop_neg (ratio : R) (spectrum : list C) (idxs : list nat) :
  forall acc,
    remap_loop ratio (map cneg spectrum) idxs (map cneg acc)
    = map_result (map cneg) (remap_loop ratio spectrum idxs acc).
Proof.
  induction idxs as [| i idxs IH]; intros acc; cbn [remap_loop]; [reflexivity |].
  destruct (truediv i ratio) as [q |]; [| reflexivity]. cbn [bindR].
  destruct (py_int q) as [z |]; [| reflexivity]. cbn [bindR].
  rewrite length_map, cneg_nth.
  destruct (_ && _)%bool; [| apply IH].
  rewrite add_at_neg. apply IH.
Qed.

Lemma shift_bins_neg (ratio : R) (spectrum : list C) :
  shift_bins ratio (map cneg spectrum) = map_result (map cneg) (shift_bins ratio spectrum).
Proof.
  unfold shift_bins. rewrite length_map, <- remap_loop_neg. f_equal.
  now rewrite map_repeat, cneg_czero.
Qed.

Lemma idft_sample_neg (a : list C) (n m : nat) :
  idft_sample (map cneg a) n m = - idft_sample a n m.
Proof.
  unfold idft_sample. rewrite !cneg_nth. cbn [cneg fst snd].
  rewrite (Rsum_ext _ (fun j => - (fst (nth (S j) a czero) * cos (angle (S j) m n)
                                   - snd (nth (S j) a czero) * sin (angle (S j) m n)))).
  - rewrite Rsum_opp. destruct (Nat.even n); unfold Rdiv; ring.
  - intros j. rewrite !cneg_nth. cbn [cneg fst snd]. ring.
Qed.

Lemma irfft_neg (a : list C) (n : nat) :
  irfft (map cneg a) n = map_result np_neg (irfft a n).
Proof.
  unfold irfft. destruct n; [reflexivity |]. cbn [map_result]. f_equal.
  unfold np_neg. rewrite map_map. apply map_ext. intros m. apply idft_sample_neg.
Qed.

Lemma np_max_abs_neg (a : list R) : np_max_abs (np_neg a) = np_max_abs a.
Proof.
  destruct a as [| x t]; [reflexivity |]. cbn [np_neg map np_max_abs].
  rewrite Rabs_Ropp, map_map.
  now rewrite (map_ext (fun v => Rabs (- v)) Rabs) by (intros v; apply Rabs_Ropp).
Qed.

Lemma normalize_neg (audio shifted : list R) :
  normalize (np_neg audio) (np_neg shifted) = map_result np_neg (normalize audio shifted).
Proof.
  unfold normalize. rewrite !np_max_abs_neg.
  destruct (np_max_abs shifted) as [max_val |]; [| reflexivity]. cbn [bindR].
  destruct (Rlt_dec 0 max_val); [| reflexivity].
  destruct (np_max_abs audio) as [peak |]; [| reflexivity]. cbn [bindR map_result].
  f_equal. unfold np_neg. rewrite !map_map. apply map_ext. intros v. field. lra.
Qed.

Lemma pitch_shift_fast_neg (audio : list R) (semitones : R) :
  pitch_shift_fast (np_neg audio) semitones
  = map_result np_neg (pitch_shift_fast audio semitones).
Proof.
  unfold pitch_shift_fast.
  destruct (Rlt_dec (Rabs semitones) 0.1); [reflexivity |].
  destruct (pow2 (semitones / 12.0)) as [ratio |]; [| reflexivity]. cbn [bindR].
  rewrite rfft_neg. destruct (rfft audio) as [spectrum |]; [| reflexivity].
  cbn [bindR map_result].
  rewrite shift_bins_neg. destruct (shift_bins ratio spectrum) as [new_spectrum |];
    [| reflexivity].
  cbn [bindR map_result].
  rewrite np_neg_length, irfft_neg.
  destruct (irfft new_spectrum (length audio)) as [shifted |]; [| reflexivity].
  cbn [bindR map_result]. apply normalize_neg.
Qed.

Lemma even_of_floor_opp (f : Z) : Z.even (- f - 1) = negb (Z.even f).
Proof.
  rewrite Z.even_sub, Z.even_opp. now destruct (Z.even f).
Qed.

Lemma np_round_opp (x : R) : np_round (- x) = - np_round x.
Proof.
  destruct (base_Int_part x) as [H1 H2].
  destruct (Req_dec_T x (IZR (Int_part x))) as [E | N].
  - rewrite E, <- opp_IZR, !np_round_IZR. now rewrite opp_IZR.
  - assert (Hf : Int_part (- x) = (- Int_part x - 1)%Z).
    { apply Int_part_between. rewrite minus_IZR, opp_IZR. lra. }
    unfold np_round. rewrite Hf, even_of_floor_opp.
    rewrite !plus_IZR, !minus_IZR, !opp_IZR.
    destruct (Rlt_dec (x - IZR (Int_part x)) (1 / 2));
      destruct (Rlt_dec (1 / 2) (x - IZR (Int_part x)));
      destruct (Rlt_dec (- x - (- IZR (Int_part x) - 1)) (1 / 2));
      destruct (Rlt_dec (1 / 2) (- x - (- IZR (Int_part x) - 1)));
      try lra.
    destruct (Z.even (Int_part x)); cbn [negb]; lra.
Qed.

Lemma bit_reduce_opp (y : R) : bit_reduce (- y) = - bit_reduce y.
Proof.
  unfold bit_reduce. replace (- y * 2 ^ bits) with (- (y * 2 ^ bits)) by ring.
  rewrite np_round_opp. rewrite two_pow_bits. field.
Qed.

Lemma soft_clip_opp (y : R) : soft_clip (- y) = - soft_clip y.
Proof.
  unfold soft_clip. replace (- y * 1.2) with (- (y * 1.2)) by ring.
  rewrite tanh_opp. ring.
Qed.

Lemma map2_neg_l (f : R -> R -> R) (a b : list R) :
  (forall x y, f (- x) y = - f x y) -> map2 f (np_neg a) b = np_neg (map2 f a b).
Proof.
  intros Hf. unfold map2, np_neg. revert b.
  induction a as [| x a IH]; intros [| y b]; cbn; try reflexivity.
  now rewrite Hf, IH.
Qed.

Lemma np_binop_neg_l (f : R -> R -> R) (a b : list R) :
  (forall x y, f (- x) y = - f x y) ->
  np_binop f (np_neg a) b = map_result np_neg (np_binop f a b).
Proof.
  intros Hf. unfold np_binop. rewrite np_neg_length.
  destruct (length a =? length b)%nat; [cbn; now rewrite map2_neg_l |].
  destruct (length b =? 1)%nat.
  { cbn [map_result]. f_equal. unfold np_neg. rewrite !map_map. apply map_ext.
    intros x. apply Hf. }
  destruct (length a =? 1)%nat; [| reflexivity].
  cbn [map_result]. f_equal. rewrite np_neg_nth. unfold np_neg. rewrite map_map.
  apply map_ext. intros y. apply Hf.
Qed.

Lemma np_binop_neg_both (f : R -> R -> R) (a b : list R) :
  (forall x y, f (- x) (- y) = - f x y) ->
  np_binop f (np_neg a) (np_neg b) = map_result np_neg (np_binop f a b).
Proof.
  intros Hf. unfold np_binop. rewrite !np_neg_length.
  destruct (length a =? length b)%nat.
  { cbn [map_result]. f_equal. unfold map2, np_neg. clear - Hf. revert b.
    induction a as [| x a IH]; intros [| y b]; cbn; try reflexivity.
    now rewrite Hf, IH. }
  destruct (length b =? 1)%nat.
  { cbn [map_result]. f_equal. rewrite np_neg_nth. unfold np_neg. rewrite !map_map.
    apply map_ext. intros x. apply Hf. }
  destruct (length a =? 1)%nat; [| reflexivity].
  cbn [map_result]. f_equal. rewrite np_neg_nth. unfold np_neg. rewrite !map_map.
  apply map_ext. intros y. apply Hf.
Qed.

Lemma np_scale_neg (a : list R) (k : R) : np_scale (np_neg a) k = np_neg (np_scale a k).
Proof.
  unfold np_scale, np_neg. rewrite !map_map. apply map_ext. intros v. ring.
Qed.

Lemma robotic_shape_neg (audio carrier : list R) (intensity : R) :
  robotic_shape (np_neg audio) carrier intensity
  = map_result np_neg (robotic_shape audio carrier intensity).
Proof.
  unfold robotic_shape, ring_modulate.
  rewrite np_binop_neg_l by (intros x y; ring).
  destruct (np_binop Rmult audio carrier) as [ac |]; [| reflexivity].
  cbn [bindR map_result]. rewrite !np_scale_neg.
  rewrite np_binop_neg_both by (intros x y; ring).
  destruct (np_binop Rplus _ _) as [modulated |]; [| reflexivity].
  cbn [bindR map_result]. f_equal. unfold np_neg. rewrite !map_map.
  apply map_ext. intros v. now rewrite bit_reduce_opp, soft_clip_opp.
Qed.

Lemma apply_robotic_effect_neg (audio : list R) (intensity : R) (g : Globals) :
  apply_robotic_effect (np_neg audio) intensity g
  = (map_result np_neg (fst (apply_robotic_effect audio intensity g)),
     snd (apply_robotic_effect audio intensity g)).
Proof.
  unfold apply_robotic_effect, bind. rewrite !read_carrier_eq, np_neg_length. unfold lift.
  now rewrite robotic_shape_neg.
Qed.

Lemma np_zeros_neg (n : nat) : np_neg (np_zeros n) = np_zeros n.
Proof. unfold np_neg, np_zeros. now rewrite map_repeat, Ropp_0. Qed.

Lemma fix_length_neg (rows : nat) (s : list R) :
  fix_length rows (np_neg s) = np_neg (fix_length rows s).
Proof.
  unfold fix_length, slice_to. rewrite np_neg_length.
  destruct (rows <? length s)%nat; [unfold np_neg; now rewrite firstn_map |].
  destruct (length s <? rows)%nat; [| reflexivity].
  unfold np_neg at 2. rewrite map_app. fold (np_neg s).
  fold (np_neg (np_zeros (rows - length s))). now rewrite np_zeros_neg.
Qed.

Lemma np_clip_neg (a : list R) :
  np_clip (-0.95) 0.95 (np_neg a) = np_neg (np_clip (-0.95) 0.95 a).
Proof.
  unfold np_clip, np_neg. rewrite !map_map. apply map_ext. intros v.
  unfold Rmin, Rmax.
  destruct (Rle_dec (- v) (-0.95)); destruct (Rle_dec v (-0.95));
    repeat match goal with |- context [Rle_dec ?a ?b] => destruct (Rle_dec a b) end; lra.
Qed.

Lemma write_stereo_neg (rows : nat) (v : list R) (g : Globals) :
  write_stereo rows (np_neg v) g
  = (map_result neg_out (fst (write_stereo rows v g)), snd (write_stereo rows v g)).
Proof.
  unfold write_stereo, bind, lift, ret, assign. rewrite np_neg_length.
  destruct (length v =? rows)%nat; [reflexivity |].
  destruct (length v =? 1)%nat; [| reflexivity].
  cbn [fst snd map_result]. rewrite np_neg_nth.
  unfold neg_out, np_neg. cbn [fst snd]. now rewrite map_repeat.
Qed.

Lemma process_neg (rows : nat) (mono : list R) (g : Globals) :
  process rows (np_neg mono) g
  = (map_result neg_out (fst (process rows mono g)), snd (process rows mono g)).
Proof.
  unfold process, bind, read, lift, ret.
  destruct (Rlt_dec 0.1 (Rabs (current_pitch g))).
  - rewrite pitch_shift_fast_neg.
    destruct (pitch_shift_fast mono (current_pitch g)) as [s | e]; [| reflexivity].
    cbn [map_result]. rewrite fix_length_neg.
    destruct (robotic_enabled g).
    + rewrite apply_robotic_effect_neg.
      destruct (apply_robotic_effect (fix_length rows s) 0.7 g) as [[o | e] g1];
        [| reflexivity].
      cbn [fst snd map_result]. rewrite np_scale_neg, np_clip_neg. apply write_stereo_neg.
    + rewrite np_scale_neg, np_clip_neg. apply write_stereo_neg.
  - destruct (robotic_enabled g).
    + rewrite apply_robotic_effect_neg.
      destruct (apply_robotic_effect mono 0.7 g) as [[o | e] g1]; [| reflexivity].
      cbn [fst snd map_result]. rewrite np_scale_neg, np_clip_neg. apply write_stereo_neg.
    + rewrite np_scale_neg, np_clip_neg. apply write_stereo_neg.
Qed.

Lemma mono_of_negate (indata : InData) : mono_of (negate indata) = np_neg (mono_of indata).
Proof.
  rewrite !mono_of_column0. unfold column0, negate, np_neg. cbn [frames sample].
  now rewrite map_map.
Qed.

(** X22.  The engine commutes with a change of polarity: on the negated block
    the callback writes the negated output, on every path, and leaves the
    same state. *)
Theorem callback_polarity (indata : InData) (g : Globals) :
  audio_callback (negate indata) g
  = (map_result neg_out (fst (audio_callback indata g)), snd (audio_callback indata g)).
Proof.
  rewrite !audio_callback_eq, mono_of_negate. cbn [frames negate].
  destruct (muted g).
  - rewrite !write_stereo_same_length by apply np_zeros_length.
    cbn [fst snd map_result]. unfold neg_out. cbn [fst snd]. now rewrite np_zeros_neg.
  - unfold try_except. rewrite process_neg.
    destruct (process (frames indata) (mono_of indata) g) as [[out | e] g1];
      cbn [fst snd map_result]; [reflexivity |].
    unfold passthrough. rewrite np_scale_neg. apply write_stereo_neg.
Qed.
